(** * NFC music player: tag sensor, playback session and session controller

    A shallow embedding of [nfc_reader.py], [music_player.py], [logger.py]
    and the poll loop of [main.py].  Python objects become records, methods
    become computations in a small state monad over the process state, and
    everything the process cannot decide by itself (the RFID hardware, the
    file system, the random source, the clock, the scheduling of the
    playback thread) is an explicit environment argument. *)

From Stdlib Require Import Ascii.
From stdpp Require Import gmap strings list fin_maps pretty sorting.

Open Scope string_scope.

(** ** Python helpers *)

Module Py.

(** Truth value of a [str]: only the empty string is falsy. *)
Definition truthy_str (s : string) : bool := negb (String.eqb s "").

(** Truth value of [None | str]. *)
Definition truthy (o : option string) : bool := from_option truthy_str false o.

(** Truth value of [None | int]. *)
Definition truthy_int (o : option Z) : bool := from_option (λ z, negb (z =? 0)%Z) false o.

(** [needle in hay] on strings. *)
Fixpoint contains (needle hay : string) : bool :=
  String.prefix needle hay ||
  match hay with
  | EmptyString => false
  | String _ rest => contains needle rest
  end.

Definition slash : Ascii.ascii := "/"%char.

Definition startswith_slash (s : string) : bool :=
  match s with
  | String c _ => Ascii.eqb c slash
  | EmptyString => false
  end.

Fixpoint endswith_slash (s : string) : bool :=
  match s with
  | EmptyString => false
  | String c EmptyString => Ascii.eqb c slash
  | String _ rest => endswith_slash rest
  end.

(** [os.path.join(a, b)] of posixpath, for two components. *)
Definition path_join (a b : string) : string :=
  if startswith_slash b then b
  else if negb (truthy_str a) || endswith_slash a then a ++ b
  else a ++ "/" ++ b.

(** [os.path.basename(p)]: what follows the last slash. *)
Fixpoint basename_from (acc p : string) : string :=
  match p with
  | EmptyString => acc
  | String c rest =>
      if Ascii.eqb c slash then basename_from "" rest
      else basename_from (acc ++ String c "") rest
  end.

Definition basename (p : string) : string := basename_from "" p.

(** [list.sort()] on a list of [str]: ascending in the code-point order,
    which on UTF-8 encoded names is the byte-wise lexicographic order. *)
Definition str_le (a b : string) : Prop := String.leb a b = true.

#[export] Instance str_le_dec a b : Decision (str_le a b).
Proof. unfold str_le. apply _. Defined.

Definition sort (l : list string) : list string := merge_sort str_le l.

Section Shuffle.
Context {A : Type}.

(** [x[i], x[j] = x[j], x[i]]; out of range Python raises [IndexError],
    which [shuffle] never triggers because [j <= i < len(x)]. *)
Definition swap (i j : nat) (x : list A) : list A :=
  match x !! i, x !! j with
  | Some a, Some b => <[j:=a]> (<[i:=b]> x)
  | _, _ => x
  end.

(** The loop of [random.shuffle] in the standard library,
    [for i in reversed(range(1, len(x))): j = randbelow(i + 1); swap].
    [rnd n] is the raw draw made for bound [n]; the library returns a
    value below the bound, hence the [mod]. *)
Fixpoint shuffle_from (rnd : nat → nat) (i : nat) (x : list A) : list A :=
  match i with
  | 0 => x
  | S i' => shuffle_from rnd i' (swap i (rnd (S i) mod S i) x)
  end.

Definition shuffle (rnd : nat → nat) (x : list A) : list A :=
  shuffle_from rnd (length x - 1) x.
End Shuffle.

End Py.

(** ** Data model *)

(** An entry of [config['nfc_mappings']]: the legacy format is a bare album
    name, the current one an object with optional keys [album], [shuffle]. *)
Inductive Mapping :=
| Legacy (album : string)
| Full (album : option string) (shuffle : option bool).

Record Config := mkConfig {
  usb_mount_path : string;
  nfc_mappings : gmap string Mapping;
}.

Inductive Action := started | started_shuffled | stopped | stopped_shuffled | unknown_tag.

Definition action_text (a : Action) : string :=
  match a with
  | started => "started"
  | started_shuffled => "started_shuffled"
  | stopped => "stopped"
  | stopped_shuffled => "stopped_shuffled"
  | unknown_tag => "unknown_tag"
  end.

(** One call of [ActivityLogger.log_activity], as the sink receives it. *)
Record ActivityEvent := mkEvent {
  timestamp : string;
  tag_id : string;
  album_of : string;
  action : Action;
}.

#[global] Instance Action_eq_dec : EqDecision Action.
Proof. solve_decision. Defined.

#[global] Instance ActivityEvent_eq_dec : EqDecision ActivityEvent.
Proof. solve_decision. Defined.

(** What reaches the outside world: the console and the audio mixer. *)
Inductive effect :=
| Print (line : string)
| MusicLoad (path : string)
| MusicPlay
| MusicStop
| TimeWait (ms : nat)
| Sleep (ms : nat).

#[global] Instance effect_eq_dec : EqDecision effect.
Proof. solve_decision. Defined.

Definition is_print (e : effect) : bool :=
  match e with Print _ => true | _ => false end.

Definition is_load (e : effect) : bool :=
  match e with MusicLoad _ => true | _ => false end.

(** Where a playback thread stands in [_play_loop]: at the [while] test, or
    inside the inner loop that waits for the mixer. *)
Inductive pc := AtHead | InTrack.

#[global] Instance pc_eq_dec : EqDecision pc.
Proof. solve_decision. Defined.

Module MusicPlayer.
Record t := mk {
  current_playlist : list string;
  current_index : nat;
  is_playing : bool;
  is_shuffled : bool;
  playback_thread : option nat;
}.

(** The fields as [__init__] leaves them. *)
Definition init : t := mk [] 0 false false None.
End MusicPlayer.

Module NFCMusicController.
Record t := mk {
  config : Config;
  music_player : MusicPlayer.t;
  logger : list ActivityEvent;
  current_nfc_id : option string;
  is_playing : bool;
}.
End NFCMusicController.

(** The process: the controller object, the threads that are alive (each
    with its place in [_play_loop]), the number of [Thread] objects created
    so far, and the effects produced, oldest first. *)
Record World := mkWorld {
  ctl : NFCMusicController.t;
  threads : gmap nat pc;
  spawned : nat;
  trace : list effect;
}.

Definition player (w : World) : MusicPlayer.t := NFCMusicController.music_player (ctl w).

(** Attribute assignment on the two objects. *)
Module Assign.
Import MusicPlayer.

Definition current_playlist (v : list string) (p : MusicPlayer.t) : MusicPlayer.t :=
  mk v (current_index p) (is_playing p) (is_shuffled p) (playback_thread p).
Definition current_index (v : nat) (p : MusicPlayer.t) : MusicPlayer.t :=
  mk (MusicPlayer.current_playlist p) v (is_playing p) (is_shuffled p) (playback_thread p).
Definition is_playing (v : bool) (p : MusicPlayer.t) : MusicPlayer.t :=
  mk (MusicPlayer.current_playlist p) (MusicPlayer.current_index p) v (is_shuffled p)
     (playback_thread p).
Definition is_shuffled (v : bool) (p : MusicPlayer.t) : MusicPlayer.t :=
  mk (MusicPlayer.current_playlist p) (MusicPlayer.current_index p)
     (MusicPlayer.is_playing p) v (playback_thread p).
Definition playback_thread (v : option nat) (p : MusicPlayer.t) : MusicPlayer.t :=
  mk (MusicPlayer.current_playlist p) (MusicPlayer.current_index p)
     (MusicPlayer.is_playing p) (MusicPlayer.is_shuffled p) v.

Definition music_player (f : MusicPlayer.t → MusicPlayer.t)
    (c : NFCMusicController.t) : NFCMusicController.t :=
  NFCMusicController.mk (NFCMusicController.config c)
    (f (NFCMusicController.music_player c)) (NFCMusicController.logger c)
    (NFCMusicController.current_nfc_id c) (NFCMusicController.is_playing c).
Definition logger (f : list ActivityEvent → list ActivityEvent)
    (c : NFCMusicController.t) : NFCMusicController.t :=
  NFCMusicController.mk (NFCMusicController.config c)
    (NFCMusicController.music_player c) (f (NFCMusicController.logger c))
    (NFCMusicController.current_nfc_id c) (NFCMusicController.is_playing c).
Definition current_nfc_id (v : option string)
    (c : NFCMusicController.t) : NFCMusicController.t :=
  NFCMusicController.mk (NFCMusicController.config c)
    (NFCMusicController.music_player c) (NFCMusicController.logger c)
    v (NFCMusicController.is_playing c).
Definition ctl_is_playing (v : bool)
    (c : NFCMusicController.t) : NFCMusicController.t :=
  NFCMusicController.mk (NFCMusicController.config c)
    (NFCMusicController.music_player c) (NFCMusicController.logger c)
    (NFCMusicController.current_nfc_id c) v.
End Assign.

(** ** The state monad of the process *)

Definition M (A : Type) : Type := World → A * World.

#[global] Instance M_ret : MRet M := λ A a w, (a, w).
#[global] Instance M_bind : MBind M :=
  λ A B k m w, let '(a, w') := m w in k a w'.

Definition ret {A} (a : A) : M A := mret a.

Definition gets {A} (f : World → A) : M A := λ w, (f w, w).
Definition modify (f : World → World) : M unit := λ w, (tt, f w).
Definition when (b : bool) (m : M unit) : M unit := if b then m else ret tt.

Definition on_ctl (f : NFCMusicController.t → NFCMusicController.t) : M unit :=
  modify (λ w, mkWorld (f (ctl w)) (threads w) (spawned w) (trace w)).
Definition on_player (f : MusicPlayer.t → MusicPlayer.t) : M unit :=
  on_ctl (Assign.music_player f).
Definition on_threads (f : gmap nat pc → gmap nat pc) : M unit :=
  modify (λ w, mkWorld (ctl w) (f (threads w)) (spawned w) (trace w)).

(** [print], the mixer calls and the waits append to the trace. *)
Definition emit (e : effect) : M unit :=
  modify (λ w, mkWorld (ctl w) (threads w) (spawned w) (trace w ++ [e])).

(** [threading.Thread(...)]: a new thread object, not yet running. *)
Definition new_thread : M nat :=
  λ w, (spawned w, mkWorld (ctl w) (threads w) (S (spawned w)) (trace w)).

(** [Thread.start()]: the thread is alive and enters [_play_loop]. *)
Definition thread_start (t : nat) : M unit := on_threads (insert t AtHead).

(** [Thread.is_alive()]. *)
Definition is_alive (t : nat) : M bool :=
  gets (λ w, bool_decide (is_Some (threads w !! t))).

(** [Thread.join(timeout=2)] returns when the thread has exited or when the
    two seconds have passed, whichever comes first; [exits_in_time] tells
    which, and in the second case the thread stays alive. *)
Definition join (exits_in_time : bool) (t : nat) : M unit :=
  if exits_in_time then on_threads (delete t) else ret tt.

(** ** The environment of one call *)

(** [SimpleMFRC522.read_no_block()]: a pair [(id, text)], both possibly
    [None], or an exception, kept as its [str]. *)
Inductive read_result :=
| ReadOk (id : option Z) (text : option string)
| ReadRaises (msg : string).

Record Env := mkEnv {
  sensor : read_result;
  path_exists : string → bool;
  glob : string → list string;
  randbelow : nat → nat;
  join_in_time : bool;
  now : string;
}.

(** ** nfc_reader.py *)

Definition read_tag (r : read_result) : M (option string) :=
  match r with
  | ReadOk id _ =>
      ret (if Py.truthy_int id then pretty <$> id else None)
  | ReadRaises e =>
      when (negb (Py.contains "AUTH ERROR" e)) (emit (Print ("NFC read error: " ++ e)));;
      ret None
  end.

(** ** logger.py *)

(** The activity log is the record of the calls; the file behind it is the
    sink's own business.  The console line is skipped for system messages. *)
Definition log_activity (ts nfc_id album : string) (a : Action) : M unit :=
  on_ctl (Assign.logger (λ l, (l ++ [mkEvent ts nfc_id album a])%list));;
  when (negb (String.eqb nfc_id "SYSTEM"))
    (emit (Print ("📝 " ++ ts ++ " | " ++ album ++ " | " ++ action_text a))).

(** ** music_player.py *)

Definition stop (exits_in_time : bool) : M unit :=
  p ← gets player;
  when (MusicPlayer.is_playing p)
    (emit (Print ("🛑 Stopping playback"
                  ++ (if MusicPlayer.is_shuffled p then " (shuffled)" else "")
                  ++ "...")));;
  on_player (Assign.is_playing false);;
  on_player (Assign.is_shuffled false);;
  emit MusicStop;;
  match MusicPlayer.playback_thread p with
  | Some t => alive ← is_alive t; when alive (join exits_in_time t)
  | None => ret tt
  end;;
  on_player (Assign.current_playlist []);;
  on_player (Assign.current_index 0).

Definition play_album (env : Env) (album_name : string) (shuffle : bool) : M bool :=
  cfg ← gets (λ w, NFCMusicController.config (ctl w));
  let album_path := Py.path_join (usb_mount_path cfg) album_name in
  if negb (path_exists env album_path) then
    emit (Print ("❌ Album path not found: " ++ album_path));;
    ret false
  else
    let mp3_files := Py.sort (glob env (Py.path_join album_path "*.mp3")) in
    match mp3_files with
    | [] =>
        emit (Print ("❌ No MP3 files found in " ++ album_path));;
        ret false
    | _ :: _ =>
        stop (join_in_time env);;
        let mp3_files :=
          if shuffle then Py.shuffle (randbelow env) mp3_files else mp3_files in
        on_player (Assign.is_shuffled shuffle);;
        on_player (Assign.current_playlist mp3_files);;
        on_player (Assign.current_index 0);;
        on_player (Assign.is_playing true);;
        emit (Print ("🎵 Starting album: " ++ album_name
                     ++ (if shuffle then " (shuffled)" else "")
                     ++ " (" ++ pretty (length mp3_files) ++ " tracks)"));;
        t ← new_thread;
        on_player (Assign.playback_thread (Some t));;
        thread_start t;;
        ret true
    end.

(** What the mixer does for the playback thread at one step: whether
    [music.load] or [music.play] raise, and what [music.get_busy()] says. *)
Record MixerObs := mkObs {
  load_error : option string;
  play_error : option string;
  busy : bool;
}.

(** The [except Exception as e] block of [_play_loop]; [None] is [break]. *)
Definition except_handler (e : string) : M (option pc) :=
  emit (Print ("❌ Playback error: " ++ e));;
  p ← gets player;
  if MusicPlayer.is_playing p && bool_decide (MusicPlayer.current_playlist p ≠ []) then
    on_player (Assign.current_index
      ((MusicPlayer.current_index p + 1) mod length (MusicPlayer.current_playlist p)));;
    emit (TimeWait 1000);;
    ret (Some AtHead)
  else ret None.

Definition track_info (p : MusicPlayer.t) (current_song : string) : string :=
  "♪ Now playing: " ++ Py.basename current_song
  ++ (if MusicPlayer.is_shuffled p
      then " [track " ++ pretty (MusicPlayer.current_index p + 1) ++ "/"
           ++ pretty (length (MusicPlayer.current_playlist p)) ++ "]"
      else "").

(** One step of the thread that runs [_play_loop], from one of its two
    waiting points to the next; [None] means the function has returned and
    the thread is gone.  From [AtHead] the step tests the [while] condition
    and starts the current track; from [InTrack] it is one turn of the inner
    [while get_busy() and is_playing] loop and, once that loop is left, the
    advance to the next track.  The fields are read where the source reads
    them; the main thread runs between steps, not inside one. *)
Definition _play_loop (o : MixerObs) (at_ : pc) : M (option pc) :=
  p ← gets player;
  match at_ with
  | AtHead =>
      if MusicPlayer.is_playing p && bool_decide (MusicPlayer.current_playlist p ≠ []) then
        match MusicPlayer.current_playlist p !! MusicPlayer.current_index p with
        | None => except_handler "list index out of range"
        | Some current_song =>
            emit (Print (track_info p current_song));;
            emit (MusicLoad current_song);;
            match load_error o with
            | Some e => except_handler e
            | None =>
                emit MusicPlay;;
                match play_error o with
                | Some e => except_handler e
                | None => ret (Some InTrack)
                end
            end
        end
      else ret None
  | InTrack =>
      if busy o && MusicPlayer.is_playing p then
        emit (TimeWait 100);; ret (Some InTrack)
      else if MusicPlayer.is_playing p then
        match length (MusicPlayer.current_playlist p) with
        | 0 => except_handler "integer division or modulo by zero"
        | S _ as n =>
            on_player (Assign.current_index ((MusicPlayer.current_index p + 1) mod n));;
            still ← gets (λ w, MusicPlayer.is_playing (player w));
            when still (emit (TimeWait 500));;
            ret (Some AtHead)
        end
      else ret (Some AtHead)
  end.

(** How a call ends: with a value, or with an exception, kept as its [str]. *)
Inductive outcome (A : Type) :=
| Returned (a : A)
| Raised (exn : string).
Arguments Returned {A} a.
Arguments Raised {A} exn.

(** [get_current_song] indexes the playlist without a bounds check: out of
    range the subscript raises [IndexError]. *)
Definition get_current_song : M (outcome (option string)) :=
  p ← gets player;
  if MusicPlayer.is_playing p && bool_decide (MusicPlayer.current_playlist p ≠ []) then
    match MusicPlayer.current_playlist p !! MusicPlayer.current_index p with
    | Some current_song => ret (Returned (Some (Py.basename current_song)))
    | None => ret (Raised "list index out of range")
    end
  else ret (Returned None).

(** ** main.py *)

Module PyOpt.
(** The value tested by [if o:] when the test succeeds. *)
Definition if_truthy (o : option string) : option string :=
  match o with
  | Some s => if Py.truthy_str s then Some s else None
  | None => None
  end.

(** How an f-string renders [None | str]. *)
Definition render (o : option string) : string := default "None" o.
End PyOpt.

Definition get_album_info (cfg : Config) (nfc_id : option string) : option string * bool :=
  match nfc_id ≫= (λ k, nfc_mappings cfg !! k) with
  | None => (None, false)
  | Some (Legacy album) => if Py.truthy_str album then (Some album, false) else (None, false)
  | Some (Full album shuffle) => (album, default false shuffle)
  end.

Definition handle_new_tag (env : Env) (nfc_id : string) : M unit :=
  cfg ← gets (λ w, NFCMusicController.config (ctl w));
  let '(album, shuffle) := get_album_info cfg (Some nfc_id) in
  match PyOpt.if_truthy album with
  | Some album =>
      emit (Print ("🎵 Tag detected! Playing album: " ++ album
                   ++ (if shuffle then " (shuffled)" else "")));;
      ok ← play_album env album shuffle;
      if (ok : bool) then
        on_ctl (Assign.current_nfc_id (Some nfc_id));;
        on_ctl (Assign.ctl_is_playing true);;
        log_activity (now env) nfc_id album (if shuffle then started_shuffled else started)
      else
        emit (Print ("❌ Album '" ++ album ++ "' not found or no MP3 files"))
  | None =>
      emit (Print ("❓ Unknown NFC ID: " ++ nfc_id));;
      emit (Print "Add this ID to config.json to map it to an album");;
      log_activity (now env) nfc_id "Unknown" unknown_tag
  end.

Definition handle_tag_removed (env : Env) : M unit :=
  cfg ← gets (λ w, NFCMusicController.config (ctl w));
  cur ← gets (λ w, NFCMusicController.current_nfc_id (ctl w));
  let '(album, shuffle) := get_album_info cfg cur in
  let album := default "Unknown" (PyOpt.if_truthy album) in
  emit (Print ("🛑 Tag removed - stopping playback of: " ++ album
               ++ (if shuffle then " (shuffled)" else "")));;
  stop (join_in_time env);;
  log_activity (now env) (PyOpt.render cur) album
    (if shuffle then stopped_shuffled else stopped);;
  on_ctl (Assign.current_nfc_id None);;
  on_ctl (Assign.ctl_is_playing false).

(** One turn of the [while True] loop of [run]. *)
Definition tick (env : Env) : M unit :=
  nfc_id ← read_tag (sensor env);
  cur ← gets (λ w, NFCMusicController.current_nfc_id (ctl w));
  match PyOpt.if_truthy nfc_id with
  | Some id =>
      if bool_decide (nfc_id ≠ cur) then handle_new_tag env id else ret tt
  | None =>
      if Py.truthy cur then handle_tag_removed env else ret tt
  end;;
  emit (Sleep 500).

(** The process after [NFCMusicController.__init__]: nothing plays, no tag
    has been seen, and the logger has recorded its start-up line.  (The
    mixer set-up and its volume line are left out.) *)
Definition boot (cfg : Config) (ts : string) : World :=
  (log_activity ts "SYSTEM" "Music Player" started
     (mkWorld (NFCMusicController.mk cfg MusicPlayer.init [] None false) ∅ 0 [])).2.

(** ** Interleavings of the poll loop and the playback threads *)

Inductive event :=
| Tick (env : Env)
| Loop (t : nat) (o : MixerObs).

Definition set_threads (f : gmap nat pc → gmap nat pc) (w : World) : World :=
  mkWorld (ctl w) (f (threads w)) (spawned w) (trace w).

Definition step (w : World) (ev : event) : World :=
  match ev with
  | Tick env => (tick env w).2
  | Loop t o =>
      match threads w !! t with
      | None => w
      | Some at_ =>
          let '(next, w') := _play_loop o at_ w in
          match next with
          | Some at' => set_threads (insert t at') w'
          | None => set_threads (delete t) w'
          end
      end
  end.

Definition run (evs : list event) (w : World) : World := foldl step w evs.

(** The number of playback threads alive. *)
Definition alive (w : World) : nat := size (threads w).

(** * Definitions used by the statements *)

(** Unfolds the monad and its primitives, leaving plain state passing. *)
Ltac unmonad :=
  cbv [mbind M_bind mret M_ret ret gets modify when on_ctl on_player
       on_threads emit new_thread thread_start is_alive join] in *.

(** The player is idle: nothing plays and no playlist is loaded. *)
Definition Idle (p : MusicPlayer.t) : Prop :=
  MusicPlayer.is_playing p = false ∧ MusicPlayer.is_shuffled p = false ∧
  MusicPlayer.current_playlist p = [] ∧ MusicPlayer.current_index p = 0.

#[global] Instance Idle_dec p : Decision (Idle p).
Proof. unfold Idle. apply _. Defined.

(** Every live playback thread is the one the player holds a handle to. *)
Definition single_session (w : World) : Prop :=
  ∀ t at_, threads w !! t = Some at_ →
    MusicPlayer.playback_thread (player w) = Some t.

(** The thread table left by [stop]. *)
Definition stop_threads (exits_in_time : bool) (w : World) : gmap nat pc :=
  match MusicPlayer.playback_thread (player w) with
  | Some t => if exits_in_time then delete t (threads w) else threads w
  | None => threads w
  end.

Definition cfg_of (w : World) : Config := NFCMusicController.config (ctl w).

Definition album_path (cfg : Config) (album_name : string) : string :=
  Py.path_join (usb_mount_path cfg) album_name.

(** The sorted [*.mp3] files of the album folder. *)
Definition album_tracks (env : Env) (cfg : Config) (album_name : string) : list string :=
  Py.sort (glob env (Py.path_join (album_path cfg album_name) "*.mp3")).

(** What [play_album] asks of an album: [os.path.exists] holds of the album
    path, and [glob] returns at least one path for the pattern
    [<album path>/*.mp3], in which the album name is not escaped. *)
Definition playable (env : Env) (cfg : Config) (album_name : string) : bool :=
  path_exists env (album_path cfg album_name)
  && bool_decide (album_tracks env cfg album_name ≠ []).

(** The playlist a started album gets. *)
Definition started_playlist (env : Env) (cfg : Config) (album_name : string)
    (shuffle : bool) : list string :=
  if shuffle then Py.shuffle (randbelow env) (album_tracks env cfg album_name)
  else album_tracks env cfg album_name.

(** The controller's own fields, without the player it owns. *)
Definition ctl_rest (w : World)
  : Config * list ActivityEvent * option string * bool :=
  (NFCMusicController.config (ctl w), NFCMusicController.logger (ctl w),
   NFCMusicController.current_nfc_id (ctl w), NFCMusicController.is_playing (ctl w)).

(** Two worlds that differ at most in the effects produced so far. *)
Definition same_state (w w' : World) : Prop :=
  ctl w' = ctl w ∧ threads w' = threads w ∧ spawned w' = spawned w.

(** What the sensor read yields does not depend on the process state. *)
Definition read_value (r : read_result) : option string :=
  match r with
  | ReadOk id _ => if Py.truthy_int id then pretty <$> id else None
  | ReadRaises _ => None
  end.

(** The world a tick leaves, up to the trace: the sensor is read, then the
    tag is compared with the one seen before. *)
Definition dispatched (env : Env) (w : World) : World :=
  let w0 := (read_tag (sensor env) w).2 in
  let cur := NFCMusicController.current_nfc_id (ctl w) in
  match PyOpt.if_truthy (read_value (sensor env)) with
  | Some id =>
      if bool_decide (read_value (sensor env) ≠ cur)
      then (handle_new_tag env id w0).2 else w0
  | None =>
      if Py.truthy cur then (handle_tag_removed env w0).2 else w0
  end.

(** The lines [read_tag] prints for a world. *)
Definition printed_by (r : read_result) (w : World) : list effect :=
  drop (length (trace w)) (trace (read_tag r w).2).


(** The player with its position moved to the next track, wrapping. *)
Definition advanced (w : World) : World :=
  let p := player w in
  mkWorld
    (Assign.music_player
       (Assign.current_index
          ((MusicPlayer.current_index p + 1) mod length (MusicPlayer.current_playlist p)))
       (ctl w))
    (threads w) (spawned w) (trace w).

Definition add_trace (out : list effect) (w : World) : World :=
  mkWorld (ctl w) (threads w) (spawned w) (trace w ++ out).

(** The exception the mixer raises when starting a track, if any. *)
Definition fault (o : MixerObs) : option string :=
  match load_error o with
  | Some e => Some e
  | None => play_error o
  end.

(** The [while] test of [_play_loop]. *)
Definition loop_condition (w : World) : bool :=
  MusicPlayer.is_playing (player w)
  && bool_decide (MusicPlayer.current_playlist (player w) ≠ []).

(** No join of the event runs into its timeout. *)
Definition joins_in_time (ev : event) : Prop :=
  match ev with
  | Tick env => join_in_time env = true
  | Loop _ _ => True
  end.

(** Thread [t] is at the [while] test of a running session on playlist [pl],
    about to play position [i]. *)
Definition playing_at (t i : nat) (pl : list string) (w : World) : Prop :=
  threads w !! t = Some AtHead ∧
  MusicPlayer.is_playing (player w) = true ∧
  MusicPlayer.current_playlist (player w) = pl ∧
  MusicPlayer.current_index (player w) = i.

(** What the mixer does while one track is played: at [load] and [play], at
    each poll of [get_busy] made while the track sounds, and at the poll
    that comes after its end. *)
Record Played := mkPlayed {
  at_start : MixerObs;
  while_busy : list MixerObs;
  at_end : MixerObs;
}.

(** The track loads and starts, every poll but the last finds the mixer
    busy, the last finds it silent. *)
Definition to_natural_end (tr : Played) : Prop :=
  fault (at_start tr) = None ∧
  Forall (λ o, busy o = true) (while_busy tr) ∧
  busy (at_end tr) = false.

(** The steps of thread [t] for one track: the pass of the outer loop that
    loads and starts it, one pass of the inner loop per poll. *)
Definition track_events (t : nat) (tr : Played) : list event :=
  Loop t (at_start tr) :: (Loop t <$> while_busy tr) ++ [Loop t (at_end tr)].

(** The steps of thread [t] playing the tracks [trs] one after the other. *)
Definition plays_through (t : nat) (trs : list Played) : list event :=
  concat (track_events t <$> trs).

(** The polls that found the mixer busy. *)
Definition busy_polls (trs : list Played) : nat :=
  sum_list (length ∘ while_busy <$> trs).

(** The 100 ms wait of the inner loop and the 500 ms gap between tracks. *)
Definition is_poll_wait (e : effect) : bool :=
  match e with TimeWait ms => bool_decide (ms = 100) | _ => false end.

Definition is_track_gap (e : effect) : bool :=
  match e with TimeWait ms => bool_decide (ms = 500) | _ => false end.

(** ** The interrupt path of [run] *)



(** ** Facts kept along every run *)

Definition is_start (e : ActivityEvent) : bool :=
  match action e with
  | started | started_shuffled => true
  | _ => false
  end.

(** What holds of the controller and its player between any two events of a
    process booted with configuration [cfg]. *)
Record consistent (cfg : Config) (w : World) : Prop := mkConsistent {
  cons_cfg : cfg_of w = cfg;
  cons_flag :
    NFCMusicController.is_playing (ctl w) = MusicPlayer.is_playing (player w);
  cons_tag :
    NFCMusicController.is_playing (ctl w)
    = bool_decide (is_Some (NFCMusicController.current_nfc_id (ctl w)));
  cons_idle : MusicPlayer.is_playing (player w) = false → Idle (player w);
  cons_range :
    MusicPlayer.is_playing (player w) = true →
    MusicPlayer.current_index (player w) < length (MusicPlayer.current_playlist (player w));
  cons_mapping :
    ∀ id, NFCMusicController.current_nfc_id (ctl w) = Some id →
      Py.truthy_str id = true ∧
      ∃ album, Py.truthy_str album = true ∧
        get_album_info cfg (Some id) = (Some album, MusicPlayer.is_shuffled (player w));
  cons_fresh : ∀ t, is_Some (threads w !! t) → t < spawned w;
  cons_starts :
    length (filter is_start (NFCMusicController.logger (ctl w))) = S (spawned w);
}.

(** The number of controller ticks among the events. *)
Definition is_tick (ev : event) : bool :=
  match ev with Tick _ => true | Loop _ _ => false end.

Definition ticks (evs : list event) : nat := length (filter is_tick evs).

(** The one-second wait of the [except] block of [_play_loop]. *)
Definition is_retry_wait (e : effect) : bool := bool_decide (e = TimeWait 1000).

(** ** logger.py, reading the log *)

(** Python's [l[start:]], where a negative [start] counts from the end and
    is clipped at the beginning of the list. *)
Definition slice_from {A} (start : Z) (l : list A) : list A :=
  if (start <? 0)%Z
  then drop (Z.to_nat (Z.max 0 (Z.of_nat (length l) + start))) l
  else drop (Z.to_nat start) l.

(** [get_recent_activity(lines)]: [file] is what [readlines()] yields, or the
    message of the exception that opening or reading the file raised. *)
Definition get_recent_activity (file : outcome (list string)) (lines : Z)
    : M (list string) :=
  match file with
  | Returned all_lines =>
      ret (if (lines <=? Z.of_nat (length all_lines))%Z
           then slice_from (- lines) all_lines
           else all_lines)
  | Raised e =>
      emit (Print ("Could not read log file: " ++ e));;
      ret []
  end.

(** ** generate_config.py *)

(** The drive as the generator sees it.  [os.listdir] raises on a path that
    cannot be listed; the other calls answer for every path. *)
Record Drive := mkDrive {
  env_user : option string;
  d_exists : string → bool;
  d_listdir : string → outcome (list string);
  d_ismount : string → bool;
  d_isdir : string → bool;
  d_glob : string → list string;
}.

(** [os.getenv('USER', 'pi')]. *)
Definition current_user (d : Drive) : string := default "pi" (env_user d).

(** Whether [item] of folder [path] counts as an album: [os.path.isdir]
    holds of its path and [glob] returns at least one path for the pattern
    [<item path>/*.mp3]. *)
Definition is_album (d : Drive) (path item : string) : bool :=
  d_isdir d (Py.path_join path item)
  && bool_decide (d_glob d (Py.path_join (Py.path_join path item) "*.mp3") ≠ []).

(** The list comprehension of [find_usb_path]: the albums of [path]. *)
Definition album_count (d : Drive) (path : string) : outcome nat :=
  match d_listdir d path with
  | Returned items => Returned (length (filter (is_album d path) items))
  | Raised e => Raised e
  end.

(** The paths [find_usb_path] looks at: the two fixed ones, then every mount
    point under the user's media folder, each followed by its MUSIC
    subfolder if there is one. *)
Definition paths_to_check (d : Drive) : outcome (list string) :=
  let media_dir := "/media/" ++ current_user d ++ "/" in
  let fixed := ["/media/" ++ current_user d ++ "/MUSIC"; "/mnt/MUSIC"] in
  if d_exists d media_dir then
    match d_listdir d media_dir with
    | Returned items =>
        Returned
          (fixed ++
           flat_map (λ item,
             let path := Py.path_join media_dir item in
             if d_ismount d path then
               path :: (if d_exists d (Py.path_join path "MUSIC")
                        then [Py.path_join path "MUSIC"] else [])
             else []) items)%list
    | Raised e => Raised e
    end
  else Returned fixed.

(** The loop that keeps the path with the most albums. *)
Fixpoint select_best (d : Drive) (paths : list string)
    (best_path : option string) (most_albums : nat) : outcome (option string * nat) :=
  match paths with
  | [] => Returned (best_path, most_albums)
  | path :: rest =>
      if d_exists d path then
        match album_count d path with
        | Returned n =>
            if (most_albums <? n)%nat then select_best d rest (Some path) n
            else select_best d rest best_path most_albums
        | Raised e => Raised e
        end
      else select_best d rest best_path most_albums
  end.

Definition find_usb_path (d : Drive) : outcome (option string * nat) :=
  match paths_to_check d with
  | Returned paths => select_best d paths None 0
  | Raised e => Raised e
  end.

(** An entry of the list [scan_albums] builds. *)
Record Album := mkAlbum {
  name : string;
  path : string;
  track_count : nat;
}.

Definition name_le (a b : Album) : Prop := Py.str_le (name a) (name b).

#[global] Instance name_le_dec a b : Decision (name_le a b).
Proof. unfold name_le. apply Py.str_le_dec. Defined.

(** The body of the loop of [scan_albums]: the entry for [item] when it is a
    directory for whose pattern [<item path>/*.mp3] [glob] returns a path. *)
Definition album_entry (d : Drive) (music_path item : string) : option Album :=
  let item_path := Py.path_join music_path item in
  if d_isdir d item_path then
    match d_glob d (Py.path_join item_path "*.mp3") with
    | [] => None
    | mp3_files => Some (mkAlbum item item_path (length mp3_files))
    end
  else None.

(** [scan_albums(music_path)].  The result is sorted by name; directory
    listings have no two entries of the same name, so the order among equal
    names is left aside. *)
Definition scan_albums (d : Drive) (music_path : string) : outcome (list Album) :=
  if negb (d_exists d music_path) then Returned []
  else
    match d_listdir d music_path with
    | Returned items =>
        Returned (merge_sort name_le (omap (album_entry d music_path) items))
    | Raised e => Raised e
    end.

(** The assignment [config['nfc_mappings'][tag_id] = {"album": ..., "shuffle": ...}]
    of [interactive_mapping]. *)
Definition map_tag (tag_id album : string) (shuffle : bool) (cfg : Config) : Config :=
  mkConfig (usb_mount_path cfg)
    (<[tag_id := Full (Some album) (Some shuffle)]> (nfc_mappings cfg)).

(** [read_nfc_tag] of the generator: the sensor is polled until it yields an
    id that is not zero or ten seconds are over.  [polls] is what
    [read_no_block] did at each poll made in that time; a poll that raises is
    passed over. *)
Fixpoint read_nfc_tag (polls : list read_result) : option string :=
  match polls with
  | [] => None
  | ReadOk id _ :: rest =>
      if Py.truthy_int id then pretty <$> id else read_nfc_tag rest
  | ReadRaises _ :: rest => read_nfc_tag rest
  end.

(** What the user and the sensor answer while [interactive_mapping] handles
    one album: the line typed at "Map this album?", stripped and in lower
    case; the polls of the sensor; the line typed at "Overwrite?", stripped
    and in lower case, asked only for a tag that is mapped already; the
    answer of [ask_shuffle_preference]. *)
Record Answers := mkAnswers {
  map_this : string;
  polls : list read_result;
  overwrite : string;
  shuffle_answer : bool;
}.

(** One pass of the loop of [interactive_mapping], for the album named
    [album]: the configuration afterwards, and whether the loop goes on
    ([false] is [break]).  The lines printed on the way are left out. *)
Definition map_album (album : string) (a : Answers) (cfg : Config) : Config * bool :=
  if String.eqb (map_this a) "q" then (cfg, false)
  else if negb (String.eqb (map_this a) "y") then (cfg, true)
  else
    match PyOpt.if_truthy (read_nfc_tag (polls a)) with
    | Some tag_id =>
        if bool_decide (is_Some (nfc_mappings cfg !! tag_id))
           && negb (String.eqb (overwrite a) "y")
        then (cfg, true)
        else (map_tag tag_id album (shuffle_answer a) cfg, true)
    | None => (cfg, true)
    end.

(** [interactive_mapping]: the albums in the order of [self.albums], each
    with the answers it gets. *)
Fixpoint interactive_mapping (albums : list (Album * Answers)) (cfg : Config) : Config :=
  match albums with
  | [] => cfg
  | (album, a) :: rest =>
      match map_album (name album) a cfg with
      | (cfg', true) => interactive_mapping rest cfg'
      | (cfg', false) => cfg'
      end
  end.

(** The candidates that exist, each with its number of albums. *)
Definition counted (d : Drive) (paths : list string) : list (string * nat) :=
  omap (λ p, if d_exists d p
             then match album_count d p with Returned n => Some (p, n) | Raised _ => None end
             else None) paths.

(** Every path the generator would list can be listed. *)
Definition listable (d : Drive) (paths : list string) : Prop :=
  ∀ p, p ∈ paths → d_exists d p = true → ∃ items, d_listdir d p = Returned items.

(** ** A worked installation

    Three tags are mapped: "111" to the album Jazz, "222" to Rock in the
    legacy format, "333" to Pop with shuffle.  Tag "999" is not mapped and
    tag "444" is mapped to a folder that is not on the drive. *)
Module Scenario.

Definition cfg : Config :=
  mkConfig "/mnt/usb"
    (<["111" := Full (Some "Jazz") (Some false)]>
     (<["222" := Legacy "Rock"]>
      (<["333" := Full (Some "Pop") (Some true)]>
       (<["444" := Legacy "Gone"]> ∅)))).

Definition fs_exists (p : string) : bool :=
  bool_decide (p ∈ ["/mnt/usb/Jazz"; "/mnt/usb/Rock"; "/mnt/usb/Pop"; "/mnt/usb/Empty"]).

Definition fs_glob (p : string) : list string :=
  if String.eqb p "/mnt/usb/Jazz/*.mp3" then
    ["/mnt/usb/Jazz/03 c.mp3"; "/mnt/usb/Jazz/01 a.mp3"; "/mnt/usb/Jazz/02 b.mp3"]
  else if String.eqb p "/mnt/usb/Rock/*.mp3" then ["/mnt/usb/Rock/x.mp3"]
  else if String.eqb p "/mnt/usb/Pop/*.mp3" then
    ["/mnt/usb/Pop/p1.mp3"; "/mnt/usb/Pop/p2.mp3"; "/mnt/usb/Pop/p3.mp3";
     "/mnt/usb/Pop/p4.mp3"]
  else [].

(** The environment of a tick: what the sensor reads and whether a join
    would see the thread exit within its two seconds. *)
Definition env (r : read_result) (joins : bool) : Env :=
  mkEnv r fs_exists fs_glob (λ n, 7) joins "2026-01-01 12:00:00".

Definition tag (id : Z) : read_result := ReadOk (Some id) (Some "").
Definition no_tag : read_result := ReadOk None None.

Definition w0 : World := boot cfg "2026-01-01 11:59:00".

(** Jazz is playing after tag "111" was put on the reader. *)
Definition jazz : World := run [Tick (env (tag 111) true)] w0.

(** The mixer played the track to its end. *)
Definition finished : MixerObs := mkObs None None false.
(** The track is still sounding. *)
Definition sounding : MixerObs := mkObs None None true.
(** The mixer could not load the file. *)
Definition unreadable : MixerObs := mkObs (Some "Unrecognized audio format") None false.

End Scenario.

(** ** A worked set-up

    One stick is mounted under the media folder of user pi; its MUSIC folder
    holds the albums Rock and Jazz and a folder of notes without music. *)
Module Setup.

Definition dirs : list string :=
  ["/media/pi/"; "/media/pi/STICK"; "/media/pi/STICK/MUSIC";
   "/media/pi/STICK/MUSIC/Rock"; "/media/pi/STICK/MUSIC/Jazz";
   "/media/pi/STICK/MUSIC/notes"].

Definition listdir (p : string) : outcome (list string) :=
  if String.eqb p "/media/pi/" then Returned ["STICK"]
  else if String.eqb p "/media/pi/STICK" then Returned ["MUSIC"; "readme.txt"]
  else if String.eqb p "/media/pi/STICK/MUSIC" then Returned ["Rock"; "Jazz"; "notes"]
  else Raised "Not a directory".

Definition mp3s (p : string) : list string :=
  if String.eqb p "/media/pi/STICK/MUSIC/Jazz/*.mp3" then
    ["/media/pi/STICK/MUSIC/Jazz/03 c.mp3"; "/media/pi/STICK/MUSIC/Jazz/01 a.mp3";
     "/media/pi/STICK/MUSIC/Jazz/02 b.mp3"]
  else if String.eqb p "/media/pi/STICK/MUSIC/Rock/*.mp3" then
    ["/media/pi/STICK/MUSIC/Rock/x.mp3"]
  else [].

Definition drive : Drive :=
  mkDrive (Some "pi")
    (λ p, bool_decide (p ∈ dirs))
    listdir
    (λ p, String.eqb p "/media/pi/STICK")
    (λ p, bool_decide (p ∈ dirs))
    mp3s.

(** The player's view of the same stick. *)
Definition env : Env :=
  mkEnv (ReadOk None None) (λ p, bool_decide (p ∈ dirs)) mp3s (λ n, 0) true
    "2026-01-01 12:00:00".

End Setup.

(** ** An album whose name has a bracket

    The drive holds an empty folder named [A[bc]], next to it a folder [Ab]
    with one MP3 file, and the Jazz album.  [play_album] hands the album path
    to [glob.glob] as part of the pattern, and [glob] reads [[bc]] in it as a
    bracket expression: the pattern [/mnt/usb/A[bc]/*.mp3] matches the files
    of the folders [Ab] and [Ac], not those of the folder [A[bc]]. *)
Module Brackets.

Definition cfg : Config :=
  mkConfig "/mnt/usb"
    (<["111" := Full (Some "Jazz") (Some false)]> (<["777" := Legacy "A[bc]"]> ∅)).

Definition fs_exists (p : string) : bool :=
  bool_decide (p ∈ ["/mnt/usb/A[bc]"; "/mnt/usb/Ab"; "/mnt/usb/Jazz"]).

Definition fs_glob (p : string) : list string :=
  if String.eqb p "/mnt/usb/A[bc]/*.mp3" then ["/mnt/usb/Ab/x.mp3"]
  else if String.eqb p "/mnt/usb/Ab/*.mp3" then ["/mnt/usb/Ab/x.mp3"]
  else if String.eqb p "/mnt/usb/Jazz/*.mp3" then
    ["/mnt/usb/Jazz/01 a.mp3"; "/mnt/usb/Jazz/02 b.mp3"; "/mnt/usb/Jazz/03 c.mp3"]
  else [].

Definition env (r : read_result) : Env :=
  mkEnv r fs_exists fs_glob (λ n, 0) true "2026-01-01 12:00:00".

(** Jazz is playing for tag "111". *)
Definition jazz : World :=
  run [Tick (env (ReadOk (Some 111%Z) (Some "")))] (boot cfg "2026-01-01 11:59:00").

End Brackets.

(** * Reasoning support *)

Section StopFacts.
Variables (j : bool) (w : World).

Lemma stop_player :
  player (stop j w).2 =
  MusicPlayer.mk [] 0 false false (MusicPlayer.playback_thread (player w)).
Proof.
  unfold stop. unmonad.
  destruct w as [[cfg [pl ix pg sh th]] ths n tr]; cbn.
  destruct pg, th as [t|]; cbn; try reflexivity;
    destruct (bool_decide _), j; reflexivity.
Qed.

Lemma stop_threads_eq : threads (stop j w).2 = stop_threads j w.
Proof.
  unfold stop, stop_threads. unmonad.
  destruct w as [[cfg [pl ix pg sh th]] ths n tr]; cbn.
  destruct pg, th as [t|]; cbn; try reflexivity;
    case_bool_decide as Hal; destruct j; cbn; try reflexivity;
    symmetry; apply delete_id; by apply eq_None_not_Some.
Qed.

Lemma stop_spawned : spawned (stop j w).2 = spawned w.
Proof.
  unfold stop. unmonad.
  destruct w as [[cfg [pl ix pg sh th]] ths n tr]; cbn.
  destruct pg, th as [t|]; cbn; try reflexivity;
    destruct (bool_decide _), j; reflexivity.
Qed.

Lemma stop_ctl_rest :
  NFCMusicController.config (ctl (stop j w).2) = NFCMusicController.config (ctl w) ∧
  NFCMusicController.logger (ctl (stop j w).2) = NFCMusicController.logger (ctl w) ∧
  NFCMusicController.current_nfc_id (ctl (stop j w).2)
    = NFCMusicController.current_nfc_id (ctl w) ∧
  NFCMusicController.is_playing (ctl (stop j w).2)
    = NFCMusicController.is_playing (ctl w).
Proof.
  unfold stop. unmonad.
  destruct w as [[cfg [pl ix pg sh th]] ths n tr]; cbn.
  destruct pg, th as [t|]; cbn; try done;
    destruct (bool_decide _), j; done.
Qed.

Lemma stop_idle : Idle (player (stop j w).2).
Proof. rewrite stop_player. by repeat split. Qed.

Lemma stop_single_session : single_session w → single_session (stop j w).2.
Proof.
  intros Hs t at_. rewrite stop_threads_eq, stop_player. cbn.
  unfold stop_threads. intros Ht. apply (Hs t at_).
  destruct (MusicPlayer.playback_thread (player w)) as [t0|]; [|done].
  destruct j; [|done]. by apply lookup_delete_Some in Ht as [_ ?].
Qed.

End StopFacts.

(** When the join returns because the thread is gone, a world with a single
    session has no playback thread left. *)
Lemma stop_joined_no_thread w :
  single_session w → threads (stop true w).2 = ∅.
Proof.
  intros Hs. rewrite stop_threads_eq. unfold stop_threads.
  apply map_eq. intros t. rewrite lookup_empty.
  destruct (MusicPlayer.playback_thread (player w)) as [t0|] eqn:Hth.
  - destruct (decide (t = t0)) as [->|Hne].
    + apply lookup_delete_eq.
    + rewrite lookup_delete_ne by done.
      destruct (threads w !! t) as [at_|] eqn:Hl; [|done].
      apply Hs in Hl. congruence.
  - destruct (threads w !! t) as [at_|] eqn:Hl; [|done].
    apply Hs in Hl. congruence.
Qed.

(** ** What [play_album] finds on the drive *)

Lemma stop_ctl_rest_eq j w : ctl_rest (stop j w).2 = ctl_rest w.
Proof.
  unfold ctl_rest. destruct (stop_ctl_rest j w) as (-> & -> & -> & ->). done.
Qed.

Lemma play_album_result env album_name shuffle w :
  (play_album env album_name shuffle w).1 = playable env (cfg_of w) album_name.
Proof.
  unfold play_album, playable, album_tracks, album_path, cfg_of. unmonad.
  destruct (path_exists env _); cbn; [|done].
  destruct (Py.sort _) as [|f fs]; cbn; [done|].
  destruct (stop _ w) as [u w1]. cbn. done.
Qed.

(** A refused album leaves everything but the console as it was. *)
Lemma play_album_refused env album_name shuffle w :
  playable env (cfg_of w) album_name = false →
  ctl (play_album env album_name shuffle w).2 = ctl w ∧
  threads (play_album env album_name shuffle w).2 = threads w ∧
  spawned (play_album env album_name shuffle w).2 = spawned w.
Proof.
  unfold play_album, playable, album_tracks, album_path, cfg_of. unmonad.
  destruct (path_exists env _); cbn; [|done].
  destruct (Py.sort _) as [|f fs]; cbn; [done|].
  done.
Qed.

(** An accepted album: the old session is stopped, then the new one is set
    up and its thread launched. *)
Lemma play_album_accepted env album_name shuffle w :
  playable env (cfg_of w) album_name = true →
  let w2 := (play_album env album_name shuffle w).2 in
  player w2 = MusicPlayer.mk (started_playlist env (cfg_of w) album_name shuffle)
                0 true shuffle (Some (spawned w)) ∧
  threads w2 = <[spawned w := AtHead]> (stop_threads (join_in_time env) w) ∧
  spawned w2 = S (spawned w) ∧
  ctl_rest w2 = ctl_rest w.
Proof.
  intros Hp. cbn zeta.
  rewrite <- (stop_ctl_rest_eq (join_in_time env) w).
  rewrite <- (stop_spawned (join_in_time env) w).
  rewrite <- (stop_threads_eq (join_in_time env) w).
  revert Hp.
  unfold play_album, playable, started_playlist, album_tracks, album_path, cfg_of.
  unmonad.
  destruct (path_exists env _); cbn; [|done].
  destruct (Py.sort _) as [|f fs]; cbn; [done|]. intros _.
  destruct (stop _ w) as [u [[cfg [pl ix pg sh th]] ths n tr]]. cbn.
  destruct shuffle; done.
Qed.

(** ** [random.shuffle] rearranges and nothing else *)

Section ShuffleFacts.
Context {A : Type}.
Implicit Types x : list A.

Lemma swap_Permutation i k x : Py.swap i k x ≡ₚ x.
Proof.
  unfold Py.swap.
  destruct (x !! i) as [a|] eqn:Hi; [|done].
  destruct (x !! k) as [b|] eqn:Hk; [|done].
  by apply Permutation_insert_swap.
Qed.

Lemma shuffle_from_Permutation rnd i x : Py.shuffle_from rnd i x ≡ₚ x.
Proof.
  revert x. induction i as [|i IH]; intros x; cbn [Py.shuffle_from]; [done|].
  rewrite IH. apply swap_Permutation.
Qed.

Lemma shuffle_Permutation rnd x : Py.shuffle rnd x ≡ₚ x.
Proof. apply shuffle_from_Permutation. Qed.

Lemma shuffle_length rnd x : length (Py.shuffle rnd x) = length x.
Proof. apply Permutation_length, shuffle_Permutation. Qed.
End ShuffleFacts.

Lemma sort_Permutation l : Py.sort l ≡ₚ l.
Proof. apply merge_sort_Permutation. Qed.

Lemma sort_nil_iff l : Py.sort l = [] ↔ l = [].
Proof.
  split; intros H.
  - apply Permutation_nil_r. rewrite <- H. symmetry. apply sort_Permutation.
  - subst. reflexivity.
Qed.

(** ** The controller's handlers *)

Lemma read_tag_same_state r w : same_state w (read_tag r w).2.
Proof.
  unfold read_tag. unmonad. destruct r as [id text|e]; cbn; [done|].
  destruct (Py.contains _ _); done.
Qed.

Lemma read_tag_trace r w :
  ∃ out, trace (read_tag r w).2 = (trace w ++ out)%list ∧ Forall is_print out.
Proof.
  unfold read_tag. unmonad. destruct r as [id text|e]; cbn.
  - exists []. by rewrite app_nil_r.
  - destruct (Py.contains _ _); cbn.
    + exists []. by rewrite app_nil_r.
    + eexists. split; [reflexivity|]. repeat constructor.
Qed.

Lemma read_tag_value r w : (read_tag r w).1 = read_value r.
Proof.
  unfold read_tag. unmonad. destruct r as [id text|e]; cbn; [done|].
  destruct (Py.contains _ _); done.
Qed.

Section NewTag.
Variables (env : Env) (nfc_id : string) (w : World).

Let w' := (handle_new_tag env nfc_id w).2.

Lemma handle_new_tag_unknown :
  PyOpt.if_truthy (get_album_info (cfg_of w) (Some nfc_id)).1 = None →
  player w' = player w ∧ threads w' = threads w ∧ spawned w' = spawned w ∧
  ctl_rest w' =
    (cfg_of w,
     (NFCMusicController.logger (ctl w)
        ++ [mkEvent (now env) nfc_id "Unknown" unknown_tag])%list,
     NFCMusicController.current_nfc_id (ctl w),
     NFCMusicController.is_playing (ctl w)) ∧
  ∃ out, trace w' = (trace w ++ out)%list ∧ Forall is_print out.
Proof.
  subst w'. unfold handle_new_tag, cfg_of. unmonad.
  destruct (get_album_info _ _) as [album shuffle]. cbn [fst].
  intros ->. unfold log_activity. unmonad.
  destruct w as [[cfg p lg cur pg] ths n tr]. cbn.
  destruct (negb _); cbn; repeat split; rewrite <- ?app_assoc;
    eexists; (split; [reflexivity|]); repeat constructor.
Qed.

Lemma handle_new_tag_refused album shuffle :
  get_album_info (cfg_of w) (Some nfc_id) = (Some album, shuffle) →
  Py.truthy_str album = true →
  playable env (cfg_of w) album = false →
  same_state w w'.
Proof.
  subst w'. unfold handle_new_tag. unmonad. fold (cfg_of w).
  intros -> Ht Hp. cbn [PyOpt.if_truthy]. rewrite Ht.
  match goal with |- context [play_album env album shuffle ?w0] =>
    pose proof (play_album_result env album shuffle w0) as Hr;
    pose proof (play_album_refused env album shuffle w0 Hp) as (Hc & Hth & Hsp);
    destruct (play_album env album shuffle w0) as [ok w2]
  end.
  cbn in Hr, Hc, Hth, Hsp. unfold cfg_of in Hr. cbn in Hr.
  fold (cfg_of w) in Hr. rewrite Hp in Hr. subst ok. cbn. done.
Qed.

Lemma handle_new_tag_started album shuffle :
  get_album_info (cfg_of w) (Some nfc_id) = (Some album, shuffle) →
  Py.truthy_str album = true →
  playable env (cfg_of w) album = true →
  player w' = MusicPlayer.mk (started_playlist env (cfg_of w) album shuffle)
                0 true shuffle (Some (spawned w)) ∧
  threads w' = <[spawned w := AtHead]> (stop_threads (join_in_time env) w) ∧
  spawned w' = S (spawned w) ∧
  ctl_rest w' =
    (cfg_of w,
     (NFCMusicController.logger (ctl w)
        ++ [mkEvent (now env) nfc_id album
              (if shuffle then started_shuffled else started)])%list,
     Some nfc_id, true).
Proof.
  subst w'. unfold handle_new_tag. unmonad. fold (cfg_of w).
  intros -> Ht Hp. cbn [PyOpt.if_truthy]. rewrite Ht.
  match goal with |- context [play_album env album shuffle ?w0] =>
    pose proof (play_album_result env album shuffle w0) as Hr;
    pose proof (play_album_accepted env album shuffle w0 Hp) as (Hpl & Hth & Hsp & Hc);
    destruct (play_album env album shuffle w0) as [ok w2]
  end.
  cbn in Hr, Hpl, Hth, Hsp, Hc. unfold cfg_of in Hr. cbn in Hr.
  fold (cfg_of w) in Hr. rewrite Hp in Hr. subst ok.
  unfold log_activity. unmonad.
  destruct w2 as [[cfg2 p2 lg2 cur2 pg2] ths2 n2 tr2].
  unfold ctl_rest, player in *. cbn in *.
  injection Hc as -> -> -> ->. subst.
  destruct (negb _); cbn; done.
Qed.
End NewTag.

Lemma handle_tag_removed_spec env w :
  let w' := (handle_tag_removed env w).2 in
  let cur := NFCMusicController.current_nfc_id (ctl w) in
  let info := get_album_info (cfg_of w) cur in
  player w' = MusicPlayer.mk [] 0 false false (MusicPlayer.playback_thread (player w)) ∧
  threads w' = stop_threads (join_in_time env) w ∧
  spawned w' = spawned w ∧
  ctl_rest w' =
    (cfg_of w,
     (NFCMusicController.logger (ctl w)
        ++ [mkEvent (now env) (PyOpt.render cur)
              (default "Unknown" (PyOpt.if_truthy info.1))
              (if info.2 then stopped_shuffled else stopped)])%list,
     None, false).
Proof.
  cbn zeta. unfold handle_tag_removed. unmonad. fold (cfg_of w).
  destruct (get_album_info _ _) as [album shuffle]. cbn [fst snd].
  match goal with |- context [stop ?j ?w0] =>
    pose proof (stop_player j w0) as Hpl;
    pose proof (stop_threads_eq j w0) as Hth;
    pose proof (stop_spawned j w0) as Hsp;
    pose proof (stop_ctl_rest_eq j w0) as Hc;
    destruct (stop j w0) as [u w2]
  end.
  unfold log_activity. unmonad.
  destruct w2 as [[cfg2 p2 lg2 cur2 pg2] ths2 n2 tr2].
  destruct w as [[cfg p lg cur pg] ths n tr].
  unfold ctl_rest, player, stop_threads, cfg_of in *. cbn in *.
  injection Hc as -> -> -> ->. subst.
  destruct (negb _); cbn; done.
Qed.

Lemma tick_dispatched env w :
  same_state (dispatched env w) (tick env w).2 ∧
  trace (tick env w).2 = (trace (dispatched env w) ++ [Sleep 500])%list.
Proof.
  unfold tick, dispatched. unmonad.
  pose proof (read_tag_value (sensor env) w) as Hv.
  pose proof (read_tag_same_state (sensor env) w) as (Hc & _).
  destruct (read_tag (sensor env) w) as [nfc w0]. cbn in Hv, Hc. subst nfc.
  cbn [snd]. rewrite Hc.
  destruct (PyOpt.if_truthy _) as [id|].
  - case_bool_decide.
    + by destruct (handle_new_tag env id w0).
    + done.
  - destruct (Py.truthy _).
    + by destruct (handle_tag_removed env w0).
    + done.
Qed.

Lemma same_state_player w w' : same_state w w' → player w' = player w.
Proof. intros (Hc & _). unfold player. by rewrite Hc. Qed.

Lemma same_state_ctl_rest w w' : same_state w w' → ctl_rest w' = ctl_rest w.
Proof. intros (Hc & _). unfold ctl_rest. by rewrite Hc. Qed.

Lemma same_state_cfg w w' : same_state w w' → cfg_of w' = cfg_of w.
Proof. intros (Hc & _). unfold cfg_of. by rewrite Hc. Qed.

Lemma same_state_stop_threads j w w' :
  same_state w w' → stop_threads j w' = stop_threads j w.
Proof.
  intros Hs. unfold stop_threads.
  rewrite (same_state_player _ _ Hs). destruct Hs as (_ & -> & _). done.
Qed.


(** * The claims *)

(** ** C9: faults of the sensor read *)

(** C9, as stated, fails: an authentication error is swallowed and reported
    as no tag, but nothing is logged for it.  Were every authentication
    error logged, the read that raises "AUTH ERROR" would print a line. *)
Lemma read_tag_auth_error_is_silent :
  ¬ (∀ e w, Py.contains "AUTH ERROR" e = true →
       (read_tag (ReadRaises e) w).1 = None ∧
       ∃ line, Print line ∈ printed_by (ReadRaises e) w).
Proof.
  intros H.
  destruct (H "AUTH ERROR" Scenario.w0 eq_refl) as (_ & line & Hin).
  vm_compute in Hin. by apply elem_of_nil in Hin.
Qed.

(** C9, amended: a read that raises is always reported as no tag.  When the
    message of the exception contains "AUTH ERROR" the fault is swallowed
    without a trace and the process is left exactly as it was; any other
    fault prints one line, "NFC read error: " followed by the message, and
    changes nothing else. *)
Theorem read_tag_on_fault e w :
  read_tag (ReadRaises e) w =
  (None,
   if Py.contains "AUTH ERROR" e then w
   else mkWorld (ctl w) (threads w) (spawned w)
          (trace w ++ [Print ("NFC read error: " ++ e)])).
Proof.
  unfold read_tag. unmonad. destruct (Py.contains _ _); cbn; [|done].
  by destruct w.
Qed.

(** ** C7: an album that is missing or empty *)

Lemma not_playable env cfg album_name :
  path_exists env (album_path cfg album_name) = false ∨
  glob env (Py.path_join (album_path cfg album_name) "*.mp3") = [] →
  playable env cfg album_name = false.
Proof.
  unfold playable, album_tracks. intros [->| ->]; [done|].
  apply andb_false_intro2. by apply bool_decide_eq_false; intros [].
Qed.

(** C7 does not hold of the code: [play_album] tests the album folder with
    [os.path.exists] on the literal path but looks for its MP3 files with
    [glob] on a pattern built from that path without escaping it.  For the
    album name [A[bc]], whose folder exists and is empty, the pattern finds
    the file of the neighbouring folder [Ab]; [play_album] then stops the
    Jazz session that was running, installs the neighbour's file as the
    playlist, launches a new thread and returns [True], where the claim has
    it return [False] and leave the session as it was. *)
Theorem play_album_bracket_name_plays_neighbour :
  let env := Brackets.env (ReadOk None None) in
  let before := Brackets.jazz in
  let after := (play_album env "A[bc]" false before).2 in
  path_exists env (album_path (cfg_of before) "A[bc]") = true ∧
  glob env (Py.path_join (album_path (cfg_of before) "A[bc]") "*.mp3")
    = ["/mnt/usb/Ab/x.mp3"] ∧
  MusicPlayer.current_playlist (player before)
    = ["/mnt/usb/Jazz/01 a.mp3"; "/mnt/usb/Jazz/02 b.mp3"; "/mnt/usb/Jazz/03 c.mp3"] ∧
  MusicPlayer.playback_thread (player before) = Some 0 ∧
  (play_album env "A[bc]" false before).1 = true ∧
  MusicPlayer.current_playlist (player after) = ["/mnt/usb/Ab/x.mp3"] ∧
  MusicPlayer.is_playing (player after) = true ∧
  MusicPlayer.playback_thread (player after) = Some 1 ∧
  threads after !! 0 = None ∧
  threads after !! 1 = Some AtHead ∧
  MusicStop ∈ drop (length (trace before)) (trace after).
Proof.
  cbn zeta. repeat split; try reflexivity.
  vm_compute. set_solver.
Qed.

(** X24: when [os.path.exists] denies the album path, or [glob] returns
    nothing for the pattern [<album path>/*.mp3], [play_album] returns
    [False] and touches neither the player (playlist, position, flags,
    thread handle) nor the controller nor the running playback thread: it
    gives up before it calls [stop]. *)
Theorem play_album_missing_or_empty env album_name shuffle w :
  path_exists env (album_path (cfg_of w) album_name) = false ∨
  glob env (Py.path_join (album_path (cfg_of w) album_name) "*.mp3") = [] →
  (play_album env album_name shuffle w).1 = false ∧
  ctl (play_album env album_name shuffle w).2 = ctl w ∧
  threads (play_album env album_name shuffle w).2 = threads w ∧
  spawned (play_album env album_name shuffle w).2 = spawned w.
Proof.
  intros H%not_playable. split.
  - by rewrite play_album_result.
  - by apply play_album_refused.
Qed.

(** While Jazz plays, asking for the folder that is not on the drive and
    for the folder in which [glob] finds nothing changes nothing. *)
Lemma play_album_missing_or_empty_witness :
  ((play_album (Scenario.env Scenario.no_tag true) "Gone" false Scenario.jazz).1 = false ∧
   player (play_album (Scenario.env Scenario.no_tag true) "Gone" false Scenario.jazz).2
     = player Scenario.jazz) ∧
  ((play_album (Scenario.env Scenario.no_tag true) "Empty" true Scenario.jazz).1 = false ∧
   threads (play_album (Scenario.env Scenario.no_tag true) "Empty" true Scenario.jazz).2
     = threads Scenario.jazz).
Proof.
  split.
  - destruct (play_album_missing_or_empty
                (Scenario.env Scenario.no_tag true) "Gone" false Scenario.jazz)
      as (Hr & Hc & _); [left; reflexivity|].
    split; [exact Hr|]. unfold player. by rewrite Hc.
  - destruct (play_album_missing_or_empty
                (Scenario.env Scenario.no_tag true) "Empty" true Scenario.jazz)
      as (Hr & _ & Ht & _); [right; reflexivity|].
    split; [exact Hr|exact Ht].
Defined.

(** ** C10: stopping twice *)

Lemma ctl_ext w w' :
  player w' = player w → ctl_rest w' = ctl_rest w → ctl w' = ctl w.
Proof.
  unfold player, ctl_rest.
  destruct (ctl w) as [c p l i g], (ctl w') as [c' p' l' i' g']. cbn.
  by intros -> [= -> -> -> ->].
Qed.

(** C10: [stop] is defined on every state and always leaves the player
    idle: not playing, not shuffled, empty playlist, position 0.  A second
    [stop] changes nothing in the player or the controller, whatever state
    the first one started from, and the two together leave the thread table
    a single [stop] would leave if its join saw the thread exit whenever
    one of the two joins does. *)
Theorem stop_idempotent j1 j2 w :
  Idle (player (stop j1 w).2) ∧
  ctl (stop j2 (stop j1 w).2).2 = ctl (stop j1 w).2 ∧
  threads (stop j2 (stop j1 w).2).2 = stop_threads (j1 || j2) w.
Proof.
  split; [apply stop_idle|]. split.
  - apply ctl_ext; [|apply stop_ctl_rest_eq].
    by rewrite !stop_player.
  - rewrite stop_threads_eq. unfold stop_threads at 1.
    rewrite stop_player, stop_threads_eq. unfold stop_threads. cbn.
    destruct (MusicPlayer.playback_thread (player w)) as [t|]; [|done].
    destruct j1, j2; cbn; try done. by rewrite delete_delete_eq.
Qed.

(** ** C4: shuffling keeps the tracks *)

(** C4: when the album folder exists and holds MP3 files, [play_album] with
    [shuffle=True] starts and marks the session shuffled, and the playlist
    it installs is a rearrangement of the sorted file list: the same
    multiset, hence the same length and the same set of paths. *)
Theorem shuffle_preserves_tracks env album_name w :
  playable env (cfg_of w) album_name = true →
  let before := album_tracks env (cfg_of w) album_name in
  let w' := (play_album env album_name true w).2 in
  let after := MusicPlayer.current_playlist (player w') in
  (play_album env album_name true w).1 = true ∧
  MusicPlayer.is_shuffled (player w') = true ∧
  before ≠ [] ∧
  after ≡ₚ before ∧
  length after = length before ∧
  ∀ f, f ∈ after ↔ f ∈ before.
Proof.
  intros Hp. cbn zeta.
  destruct (play_album_accepted env album_name true w Hp) as (Hpl & _).
  rewrite play_album_result, Hpl. cbn.
  assert (Py.shuffle (randbelow env) (album_tracks env (cfg_of w) album_name)
          ≡ₚ album_tracks env (cfg_of w) album_name) as Hperm
    by apply shuffle_Permutation.
  repeat split; try done.
  - apply andb_prop in Hp as [_ Hne]. by apply bool_decide_eq_true in Hne.
  - by apply Permutation_length.
  - by rewrite Hperm.
  - by rewrite Hperm.
Qed.

(** Putting tag "333" on the reader shuffles the four Pop tracks. *)
Lemma shuffle_preserves_tracks_witness :
  MusicPlayer.current_playlist
    (player (play_album (Scenario.env (Scenario.tag 333) true) "Pop" true Scenario.w0).2)
  ≡ₚ ["/mnt/usb/Pop/p1.mp3"; "/mnt/usb/Pop/p2.mp3"; "/mnt/usb/Pop/p3.mp3";
      "/mnt/usb/Pop/p4.mp3"].
Proof.
  exact (proj1 (proj2 (proj2 (proj2
    (shuffle_preserves_tracks (Scenario.env (Scenario.tag 333) true) "Pop"
       Scenario.w0 eq_refl))))).
Defined.

(** ** C3 and C2: a tag that was not there before *)

Lemma pretty_N_go_nonempty x s : s ≠ "" → pretty_N_go x s ≠ "".
Proof.
  revert s. induction (N.lt_wf_0 x) as [x _ IH]; intros s Hs.
  assert (x = 0 ∨ 0 < x)%N as [->|Hpos] by lia.
  - by rewrite pretty_N_go_0.
  - rewrite pretty_N_go_step by done. apply IH; [by apply N.div_lt|done].
Qed.

Lemma pretty_Z_nonempty (z : Z) : pretty z ≠ "".
Proof.
  assert (∀ p : positive, pretty p ≠ "") as Hpos.
  { intros p. unfold pretty, pretty_positive, pretty, pretty_N.
    destruct (decide _) as [|_]; [done|].
    rewrite pretty_N_go_step by lia. by apply pretty_N_go_nonempty. }
  destruct z as [|p|p]; unfold pretty, pretty_Z; [done|apply Hpos|done].
Qed.

(** The sensor never reports an empty identifier. *)
Lemma read_value_truthy r id : read_value r = Some id → Py.truthy_str id = true.
Proof.
  destruct r as [[z|] text|e]; cbn; try done.
  destruct (negb _); [|done]. intros [= <-].
  unfold Py.truthy_str. apply negb_true_iff, String.eqb_neq, pretty_Z_nonempty.
Qed.

Lemma if_truthy_read_value r id :
  read_value r = Some id → PyOpt.if_truthy (read_value r) = Some id.
Proof. intros H. rewrite H. cbn. by rewrite (read_value_truthy r id H). Qed.

(** A tick that reads a tag other than the one seen before hands it to
    [handle_new_tag]. *)
Lemma tick_new_tag env w id :
  read_value (sensor env) = Some id →
  Some id ≠ NFCMusicController.current_nfc_id (ctl w) →
  dispatched env w = (handle_new_tag env id (read_tag (sensor env) w).2).2.
Proof.
  intros Hr Hne. unfold dispatched. rewrite (if_truthy_read_value _ _ Hr), Hr.
  by rewrite bool_decide_eq_true_2.
Qed.

Lemma get_album_info_unmapped cfg id :
  nfc_mappings cfg !! id = None → get_album_info cfg (Some id) = (None, false).
Proof. unfold get_album_info. cbn. by intros ->. Qed.

(** C3: a tick that reads a tag which differs from the tag seen before and
    has no entry in [nfc_mappings] leaves the player and the playback
    threads untouched, keeps the tag seen before, and appends exactly one
    event to the activity log, [unknown_tag] for that tag.  Apart from the
    lines it prints and the half-second sleep that ends the tick it has no
    effect: the mixer is not called. *)
Theorem unknown_tag_tick env w id :
  read_value (sensor env) = Some id →
  Some id ≠ NFCMusicController.current_nfc_id (ctl w) →
  nfc_mappings (cfg_of w) !! id = None →
  let w' := (tick env w).2 in
  player w' = player w ∧
  threads w' = threads w ∧
  spawned w' = spawned w ∧
  NFCMusicController.logger (ctl w') =
    (NFCMusicController.logger (ctl w)
       ++ [mkEvent (now env) id "Unknown" unknown_tag])%list ∧
  NFCMusicController.current_nfc_id (ctl w') = NFCMusicController.current_nfc_id (ctl w) ∧
  NFCMusicController.is_playing (ctl w') = NFCMusicController.is_playing (ctl w) ∧
  ∃ out, trace w' = (trace w ++ out ++ [Sleep 500])%list ∧ Forall is_print out.
Proof.
  intros Hr Hne Hmap. cbn zeta.
  destruct (tick_dispatched env w) as (Hs & Htr).
  rewrite (tick_new_tag env w id Hr Hne) in Hs, Htr.
  pose proof (read_tag_same_state (sensor env) w) as Hs0.
  destruct (read_tag_trace (sensor env) w) as (out0 & Htr0 & Hout0).
  set (w0 := (read_tag (sensor env) w).2) in *.
  destruct (handle_new_tag_unknown env id w0)
    as (Hpl & Hth & Hsp & Hc & out1 & Htr1 & Hout1).
  { rewrite (same_state_cfg _ _ Hs0), get_album_info_unmapped by done. done. }
  pose proof (same_state_ctl_rest _ _ Hs) as Hc'.
  rewrite (same_state_player _ _ Hs), Hpl, (same_state_player _ _ Hs0).
  destruct Hs as (_ & -> & ->). rewrite Hth, Hsp.
  destruct Hs0 as (Hc0 & -> & ->).
  rewrite Hc in Hc'. unfold ctl_rest, cfg_of in Hc'. rewrite Hc0 in Hc'.
  injection Hc' as _ -> -> ->. repeat split.
  exists (out0 ++ out1)%list. split.
  - rewrite Htr, Htr1, Htr0. by rewrite <- !app_assoc.
  - by apply Forall_app.
Qed.

(** Tag "999" is put on the reader while Jazz plays. *)
Lemma unknown_tag_tick_witness :
  let w' := (tick (Scenario.env (Scenario.tag 999) true) Scenario.jazz).2 in
  player w' = player Scenario.jazz ∧
  threads w' = threads Scenario.jazz ∧
  NFCMusicController.logger (ctl w') =
    (NFCMusicController.logger (ctl Scenario.jazz)
       ++ [mkEvent "2026-01-01 12:00:00" "999" "Unknown" unknown_tag])%list.
Proof.
  destruct (unknown_tag_tick (Scenario.env (Scenario.tag 999) true) Scenario.jazz "999")
    as (Hp & Ht & _ & Hl & _).
  - reflexivity.
  - vm_compute. discriminate.
  - reflexivity.
  - cbn zeta. split; [exact Hp|]. split; [exact Ht|exact Hl].
Defined.

Lemma if_truthy_Some o a :
  PyOpt.if_truthy o = Some a ↔ o = Some a ∧ Py.truthy_str a = true.
Proof.
  destruct o as [s|]; cbn.
  - destruct (Py.truthy_str s) eqn:Hs; split.
    + by intros [= ->].
    + by intros [[= ->] _].
    + done.
    + intros [[= ->] Ha]. congruence.
  - split; [done|]. by intros [? _].
Qed.




(** ** C5 and C8: the playback loop *)

Lemma lookup_nonempty (l : list string) i x : l !! i = Some x → l ≠ [].
Proof. by destruct l. Qed.

Lemma play_loop_track_started o w song :
  MusicPlayer.is_playing (player w) = true →
  MusicPlayer.current_playlist (player w) !! MusicPlayer.current_index (player w)
    = Some song →
  fault o = None →
  _play_loop o AtHead w =
    (Some InTrack,
     add_trace [Print (track_info (player w) song); MusicLoad song; MusicPlay] w).
Proof.
  intros Hp Hsong Hf. unfold _play_loop, fault in *. unmonad.
  rewrite Hp, Hsong, (bool_decide_eq_true_2 _ (lookup_nonempty _ _ _ Hsong)). cbn.
  destruct (load_error o); [done|]. rewrite Hf.
  unfold add_trace. cbn. by rewrite <- !app_assoc.
Qed.

Lemma play_loop_track_finished o w :
  MusicPlayer.is_playing (player w) = true →
  MusicPlayer.current_playlist (player w) ≠ [] →
  busy o = false →
  _play_loop o InTrack w = (Some AtHead, add_trace [TimeWait 500] (advanced w)).
Proof.
  intros Hp Hne Hb. unfold _play_loop. unmonad. rewrite Hp, Hb. cbn.
  destruct w as [[cfg [pl ix pg sh th]] ths n tr]. cbn in *. subst pg.
  destruct pl as [|f pl]; [done|]. reflexivity.
Qed.

Lemma play_loop_track_faulted o w song e :
  MusicPlayer.is_playing (player w) = true →
  MusicPlayer.current_playlist (player w) !! MusicPlayer.current_index (player w)
    = Some song →
  fault o = Some e →
  _play_loop o AtHead w =
    (Some AtHead,
     add_trace
       ([Print (track_info (player w) song); MusicLoad song]
        ++ match load_error o with Some _ => [] | None => [MusicPlay] end
        ++ [Print ("❌ Playback error: " ++ e); TimeWait 1000])%list
       (advanced w)).
Proof.
  intros Hp Hsong Hf. unfold _play_loop, except_handler, fault in *. unmonad.
  pose proof (lookup_nonempty _ _ _ Hsong) as Hne.
  rewrite Hp, Hsong, (bool_decide_eq_true_2 _ Hne). cbn.
  destruct w as [[cfg [pl ix pg sh th]] ths n tr]. cbn in *. subst pg.
  destruct (load_error o) as [e'|].
  - injection Hf as ->. cbn. rewrite (bool_decide_eq_true_2 _ Hne). cbn.
    unfold add_trace, advanced. cbn. by rewrite <- !app_assoc.
  - rewrite Hf. cbn. rewrite (bool_decide_eq_true_2 _ Hne). cbn.
    unfold add_trace, advanced. cbn. by rewrite <- !app_assoc.
Qed.

Lemma advanced_player w :
  player (advanced w) =
  Assign.current_index
    ((MusicPlayer.current_index (player w) + 1)
       mod length (MusicPlayer.current_playlist (player w)))
    (player w).
Proof. by destruct w as [[cfg p lg cur pg] ths n tr]. Qed.

Lemma add_trace_player out w : player (add_trace out w) = player w.
Proof. done. Qed.

Lemma advanced_in_range w :
  MusicPlayer.current_playlist (player w) ≠ [] →
  MusicPlayer.current_index (player (advanced w))
    < length (MusicPlayer.current_playlist (player (advanced w))).
Proof.
  intros Hne. rewrite advanced_player. cbn.
  apply Nat.mod_upper_bound. by destruct (MusicPlayer.current_playlist (player w)).
Qed.

(** C5: in a session that is playing a playlist of [n > 0] tracks, when the
    track at position [i] ends by itself the loop sets the position to
    [(i + 1) mod n], pauses for half a second and goes back to the [while]
    test, which still holds; the next step loads and plays the track at the
    new position.  After the last track the new position is 0. *)
Theorem track_advance_wraps o w :
  MusicPlayer.is_playing (player w) = true →
  MusicPlayer.current_playlist (player w) ≠ [] →
  busy o = false →
  let n := length (MusicPlayer.current_playlist (player w)) in
  let i := MusicPlayer.current_index (player w) in
  let w' := (_play_loop o InTrack w).2 in
  (_play_loop o InTrack w).1 = Some AtHead ∧
  player w' = Assign.current_index ((i + 1) mod n) (player w) ∧
  threads w' = threads w ∧
  trace w' = (trace w ++ [TimeWait 500])%list ∧
  (i + 1 = n → MusicPlayer.current_index (player w') = 0) ∧
  loop_condition w' = true ∧
  ∃ song,
    MusicPlayer.current_playlist (player w) !! ((i + 1) mod n) = Some song ∧
    ∀ o', fault o' = None →
      _play_loop o' AtHead w' =
        (Some InTrack,
         add_trace [Print (track_info (player w') song); MusicLoad song; MusicPlay] w').
Proof.
  intros Hp Hne Hb. cbn zeta.
  rewrite (play_loop_track_finished o w Hp Hne Hb). cbn [fst snd].
  rewrite add_trace_player, advanced_player.
  assert ((MusicPlayer.current_index (player w) + 1)
            mod length (MusicPlayer.current_playlist (player w))
          < length (MusicPlayer.current_playlist (player w))) as Hlt.
  { apply Nat.mod_upper_bound. by destruct (MusicPlayer.current_playlist (player w)). }
  repeat split.
  - cbn. intros ->. apply Nat.Div0.mod_same.
  - unfold loop_condition. rewrite add_trace_player, advanced_player. cbn.
    by rewrite Hp, bool_decide_eq_true_2.
  - destruct (lookup_lt_is_Some_2 _ _ Hlt) as [song Hsong].
    exists song. split; [done|]. intros o' Hf.
    apply play_loop_track_started; [| |done];
      rewrite add_trace_player, advanced_player; done.
Qed.

(** In the Jazz session the third track ends: the position goes from 2
    back to 0. *)
Lemma track_advance_wraps_witness :
  let w := advanced (advanced Scenario.jazz) in
  MusicPlayer.current_index (player w) = 2 ∧
  MusicPlayer.current_index (player (_play_loop Scenario.finished InTrack w).2) = 0.
Proof.
  cbn zeta. split; [reflexivity|].
  destruct (track_advance_wraps Scenario.finished (advanced (advanced Scenario.jazz)))
    as (_ & _ & _ & _ & Hwrap & _).
  - reflexivity.
  - vm_compute. discriminate.
  - reflexivity.
  - apply Hwrap. reflexivity.
Defined.

(** C8: in a session that is playing, when loading or starting the current
    track raises, the loop does not end: it prints the error, moves the
    position to [(i + 1) mod n], waits one second and goes back to the
    [while] test, which still holds.  The step that failed made one attempt
    to load a file, the faulty track, and none after the fault. *)
Theorem fault_skips_to_next_track o w song e :
  MusicPlayer.is_playing (player w) = true →
  MusicPlayer.current_playlist (player w) !! MusicPlayer.current_index (player w)
    = Some song →
  fault o = Some e →
  let n := length (MusicPlayer.current_playlist (player w)) in
  let i := MusicPlayer.current_index (player w) in
  let w' := (_play_loop o AtHead w).2 in
  (_play_loop o AtHead w).1 = Some AtHead ∧
  player w' = Assign.current_index ((i + 1) mod n) (player w) ∧
  threads w' = threads w ∧
  loop_condition w' = true ∧
  (∃ out,
     trace w' = (trace w ++ out ++ [Print ("❌ Playback error: " ++ e); TimeWait 1000])%list ∧
     filter is_load out = [MusicLoad song]).
Proof.
  intros Hp Hsong Hf. cbn zeta.
  rewrite (play_loop_track_faulted o w song e Hp Hsong Hf). cbn [fst snd].
  rewrite add_trace_player, advanced_player.
  repeat split.
  - unfold loop_condition. rewrite add_trace_player, advanced_player. cbn.
    by rewrite Hp, (bool_decide_eq_true_2 _ (lookup_nonempty _ _ _ Hsong)).
  - exists ([Print (track_info (player w) song); MusicLoad song]
            ++ match load_error o with Some _ => [] | None => [MusicPlay] end)%list.
    split.
    + reflexivity.
    + by destruct (load_error o).
Qed.

(** The first Jazz track cannot be read: the loop moves on to the second. *)
Lemma fault_skips_to_next_track_witness :
  (_play_loop Scenario.unreadable AtHead Scenario.jazz).1 = Some AtHead ∧
  MusicPlayer.current_index
    (player (_play_loop Scenario.unreadable AtHead Scenario.jazz).2) = 1.
Proof.
  destruct (fault_skips_to_next_track Scenario.unreadable Scenario.jazz
              "/mnt/usb/Jazz/01 a.mp3" "Unrecognized audio format")
    as (Hr & Hpl & _); [reflexivity..|].
  split; [exact Hr|]. by rewrite Hpl.
Defined.

(** ** C6: start, then stop *)

(** C6, as stated, fails: from the freshly booted process, Jazz is started
    and stopped at once; when the join in [stop] runs into its two-second
    timeout the player is idle but the playback thread is still alive. *)
Lemma start_then_stop_thread_may_survive :
  ¬ (∀ env album_name shuffle exits_in_time w,
       playable env (cfg_of w) album_name = true →
       let w' := (stop exits_in_time (play_album env album_name shuffle w).2).2 in
       Idle (player w') ∧ threads w' = ∅).
Proof.
  intros H.
  destruct (H (Scenario.env Scenario.no_tag true) "Jazz" false false Scenario.w0 eq_refl)
    as [_ Hth].
  apply (f_equal (λ m : gmap nat pc, m !! 0)) in Hth. vm_compute in Hth. discriminate.
Qed.

(** C6, amended: when the album folder holds MP3 files, [play_album]
    followed at once by [stop] leaves the player idle (not playing, not
    shuffled, empty playlist, position 0).  The thread [play_album] launched
    is gone when the join in [stop] saw it exit within the two seconds, and
    is still alive when the join timed out.  If moreover no thread other than
    the player's was alive before and the join inside [play_album] did not
    time out either, no playback thread is left at all. *)
Theorem start_then_stop env album_name shuffle exits_in_time w :
  playable env (cfg_of w) album_name = true →
  let w1 := (play_album env album_name shuffle w).2 in
  let w2 := (stop exits_in_time w1).2 in
  (play_album env album_name shuffle w).1 = true ∧
  threads w1 !! spawned w = Some AtHead ∧
  Idle (player w2) ∧
  threads w2 !! spawned w = (if exits_in_time then None else Some AtHead) ∧
  (single_session w → join_in_time env = true → exits_in_time = true →
   threads w2 = ∅).
Proof.
  intros Hp. cbn zeta.
  destruct (play_album_accepted env album_name shuffle w Hp) as (Hpl & Hth & _).
  set (w1 := (play_album env album_name shuffle w).2) in *.
  assert (threads (stop exits_in_time w1).2 =
          if exits_in_time then delete (spawned w) (threads w1) else threads w1) as H2.
  { rewrite stop_threads_eq. unfold stop_threads. by rewrite Hpl. }
  rewrite play_album_result, H2, Hth.
  split; [done|]. split; [apply lookup_insert_eq|]. split; [apply stop_idle|]. split.
  - destruct exits_in_time; [apply lookup_delete_eq|apply lookup_insert_eq].
  - intros Hs -> ->. rewrite <- stop_threads_eq, stop_joined_no_thread by done.
    by rewrite delete_insert_eq, delete_empty.
Qed.

(** Jazz is started on the booted process and stopped at once; both joins
    see their thread exit. *)
Lemma start_then_stop_witness :
  let w1 := (play_album (Scenario.env Scenario.no_tag true) "Jazz" false Scenario.w0).2 in
  Idle (player (stop true w1).2) ∧ threads (stop true w1).2 = ∅.
Proof.
  destruct (start_then_stop (Scenario.env Scenario.no_tag true) "Jazz" false true
              Scenario.w0 eq_refl) as (_ & _ & Hidle & _ & Hnone).
  split; [exact Hidle|].
  apply Hnone; [|reflexivity..].
  intros t at_ Ht. vm_compute in Ht. discriminate.
Defined.

(** ** C1: one session at a time *)

(** The playback loop never touches the thread table or the handle. *)
Lemma play_loop_frame o at_ w :
  threads (_play_loop o at_ w).2 = threads w ∧
  MusicPlayer.playback_thread (player (_play_loop o at_ w).2)
    = MusicPlayer.playback_thread (player w) ∧
  spawned (_play_loop o at_ w).2 = spawned w ∧
  ctl_rest (_play_loop o at_ w).2 = ctl_rest w.
Proof.
  unfold _play_loop, except_handler. unmonad.
  destruct w as [[cfg [pl ix pg sh th]] ths n tr]. cbn.
  destruct at_, pg; cbn; try done.
  - case_bool_decide as Hne; cbn; [|done].
    destruct (pl !! ix); cbn.
    + destruct (load_error o); cbn; [by rewrite bool_decide_eq_true_2|].
      destruct (play_error o); cbn; [by rewrite bool_decide_eq_true_2|done].
    + by rewrite bool_decide_eq_true_2.
  - destruct (busy o); cbn; [done|].
    destruct pl; cbn; done.
  - destruct (busy o); cbn; done.
Qed.

Lemma single_session_same_state w w' :
  same_state w w' → single_session w → single_session w'.
Proof.
  intros Hs Hw t at_. rewrite (same_state_player _ _ Hs).
  destruct Hs as (_ & -> & _). apply Hw.
Qed.

Lemma single_session_no_threads w : threads w = ∅ → single_session w.
Proof. intros He t at_. by rewrite He, lookup_empty. Qed.

Lemma single_session_stop_threads w :
  single_session w → stop_threads true w = ∅.
Proof. intros Hs. rewrite <- stop_threads_eq. by apply stop_joined_no_thread. Qed.

Lemma handle_new_tag_single_session env id w :
  join_in_time env = true → single_session w →
  single_session (handle_new_tag env id w).2.
Proof.
  intros Hj Hs.
  destruct (get_album_info (cfg_of w) (Some id)) as [album shuffle] eqn:Hinfo.
  destruct (PyOpt.if_truthy album) as [a|] eqn:Halbum.
  - apply if_truthy_Some in Halbum as [-> Ht].
    destruct (playable env (cfg_of w) a) eqn:Hp.
    + destruct (handle_new_tag_started env id w a shuffle Hinfo Ht Hp)
        as (Hpl & Hth & _).
      intros t at_. rewrite Hpl, Hth, Hj, single_session_stop_threads by done.
      intros [[<- _]|[_ Hl]]%lookup_insert_Some; [done|].
      by rewrite lookup_empty in Hl.
    + eapply single_session_same_state; [|done].
      by eapply handle_new_tag_refused.
  - destruct (handle_new_tag_unknown env id w) as (Hpl & Hth & _).
    { by rewrite Hinfo. }
    intros t at_. rewrite Hpl, Hth. apply Hs.
Qed.

Lemma step_single_session w ev :
  joins_in_time ev → single_session w → single_session (step w ev).
Proof.
  destruct ev as [env|t o]; cbn [step joins_in_time].
  - intros Hj Hs.
    destruct (tick_dispatched env w) as (Hd & _).
    apply (single_session_same_state _ _ Hd). unfold dispatched.
    pose proof (single_session_same_state _ _ (read_tag_same_state (sensor env) w) Hs)
      as Hs0.
    destruct (PyOpt.if_truthy _) as [id|].
    + case_bool_decide; [|done]. by apply handle_new_tag_single_session.
    + destruct (Py.truthy _); [|done].
      apply single_session_no_threads.
      destruct (handle_tag_removed_spec env (read_tag (sensor env) w).2)
        as (_ & -> & _).
      rewrite Hj. by apply single_session_stop_threads.
  - intros _ Hs. destruct (threads w !! t) as [at_|] eqn:Hat; [|done].
    destruct (play_loop_frame o at_ w) as (Hth & Hpt & _).
    destruct (_play_loop o at_ w) as [[at'|] w']; cbn in *;
      intros t' at''; unfold set_threads, player in *; cbn; rewrite Hpt, Hth.
    + intros [[<- _]|[_ Hl]]%lookup_insert_Some; [by apply (Hs t at_)|by apply (Hs t' at'')].
    + intros [_ Hl]%lookup_delete_Some. by apply (Hs t' at'').
Qed.

Lemma run_single_session evs w :
  Forall joins_in_time evs → single_session w → single_session (run evs w).
Proof.
  intros Hj. revert w. induction Hj as [|ev evs Hev _ IH]; intros w Hs; [done|].
  cbn. apply IH. by apply step_single_session.
Qed.

Lemma single_session_alive w : single_session w → (alive w ≤ 1)%nat.
Proof.
  intros Hs. unfold alive.
  destruct (MusicPlayer.playback_thread (player w)) as [t|] eqn:Hpt.
  - destruct (threads w !! t) as [at_|] eqn:Hat.
    + replace (threads w) with ({[t := at_]} : gmap nat pc);
        [by rewrite map_size_singleton|].
      apply map_eq. intros t'. destruct (decide (t' = t)) as [->|Hne].
      * by rewrite lookup_singleton_eq.
      * rewrite lookup_singleton_ne by done.
        destruct (threads w !! t') as [a|] eqn:Hl; [|done].
        apply Hs in Hl. congruence.
    + replace (threads w) with (∅ : gmap nat pc); [by rewrite map_size_empty; lia|].
      apply map_eq. intros t'. rewrite lookup_empty.
      destruct (threads w !! t') as [a|] eqn:Hl; [|done].
      pose proof (Hs _ _ Hl) as Ht'. congruence.
  - replace (threads w) with (∅ : gmap nat pc); [by rewrite map_size_empty; lia|].
    apply map_eq. intros t'. rewrite lookup_empty.
    destruct (threads w !! t') as [a|] eqn:Hl; [|done].
    apply Hs in Hl. congruence.
Qed.

Lemma boot_single_session cfg ts : single_session (boot cfg ts).
Proof. apply single_session_no_threads. reflexivity. Qed.

(** C1, as stated, fails: tag "111" starts Jazz, then tag "222" replaces it
    and the join on the Jazz thread runs into its timeout; [play_album] goes
    on and launches the Rock thread while the Jazz thread is still alive, so
    two playback threads run. *)
Lemma two_sessions_after_join_timeout :
  ¬ (∀ cfg ts evs, (alive (run evs (boot cfg ts)) ≤ 1)%nat).
Proof.
  intros H.
  specialize (H Scenario.cfg "2026-01-01 11:59:00"
    [Tick (Scenario.env (Scenario.tag 111) true);
     Tick (Scenario.env (Scenario.tag 222) false)]).
  vm_compute in H. lia.
Qed.

(** C1, amended: along every interleaving of controller ticks and steps of
    playback threads in which no join runs into its two-second timeout, at
    most one playback thread is alive and it is the one the player holds;
    and whenever [play_album] then launches a thread, the [stop] it ran first
    has left the player idle and no thread alive, so the launched thread is
    the only one. *)
Theorem one_session_at_a_time cfg ts evs :
  Forall joins_in_time evs →
  let w := run evs (boot cfg ts) in
  (alive w ≤ 1)%nat ∧
  single_session w ∧
  ∀ env album_name shuffle,
    join_in_time env = true →
    playable env (cfg_of w) album_name = true →
    Idle (player (stop (join_in_time env) w).2) ∧
    threads (stop (join_in_time env) w).2 = ∅ ∧
    threads (play_album env album_name shuffle w).2 = {[spawned w := AtHead]}.
Proof.
  intros Hj. cbn zeta.
  pose proof (run_single_session evs _ Hj (boot_single_session cfg ts)) as Hs.
  split; [by apply single_session_alive|]. split; [done|].
  intros env album_name shuffle Hjoin Hp.
  split; [apply stop_idle|]. rewrite Hjoin. split; [by apply stop_joined_no_thread|].
  destruct (play_album_accepted env album_name shuffle _ Hp) as (_ & -> & _).
  by rewrite Hjoin, single_session_stop_threads.
Qed.

(** Jazz, then Rock, then the tag is taken away, with the Jazz thread
    running in between; every join sees its thread exit. *)
Lemma one_session_at_a_time_witness :
  let w := run [Tick (Scenario.env (Scenario.tag 111) true);
                Loop 0 Scenario.finished;
                Tick (Scenario.env (Scenario.tag 222) true)] Scenario.w0 in
  (alive w ≤ 1)%nat ∧ threads w = {[1 := AtHead]}.
Proof.
  cbn zeta. split.
  - apply (one_session_at_a_time Scenario.cfg "2026-01-01 11:59:00"
             [Tick (Scenario.env (Scenario.tag 111) true);
              Loop 0 Scenario.finished;
              Tick (Scenario.env (Scenario.tag 222) true)]).
    repeat constructor.
  - apply map_eq. intros t.
    destruct t as [|[|t]]; [reflexivity..|].
    rewrite lookup_singleton_ne by done.
    match goal with |- ?m !! _ = None =>
      destruct (m !! S (S t)) as [a|] eqn:Hl; [|done] end.
    exfalso.
    destruct (one_session_at_a_time Scenario.cfg "2026-01-01 11:59:00"
             [Tick (Scenario.env (Scenario.tag 111) true);
              Loop 0 Scenario.finished;
              Tick (Scenario.env (Scenario.tag 222) true)]) as (_ & Hs & _).
    { repeat constructor. }
    apply Hs in Hl. vm_compute in Hl. discriminate.
Defined.

(** ** Further facts about the playback loop *)

(** Once [stop] has run, a playback thread that is still alive returns at
    its next [while] test, at most two steps away, and does nothing on the
    way: this is the exit a successful join waits for. *)
Lemma play_loop_exits_after_stop o w :
  Idle (player w) →
  _play_loop o InTrack w = (Some AtHead, w) ∧ _play_loop o AtHead w = (None, w).
Proof.
  intros (Hp & _). unfold _play_loop. unmonad. rewrite Hp. cbn.
  by rewrite andb_false_r.
Qed.

Lemma step_loop t o at_ w :
  threads w !! t = Some at_ →
  step w (Loop t o) =
    match _play_loop o at_ w with
    | (Some at', w') => set_threads (insert t at') w'
    | (None, w') => set_threads (delete t) w'
    end.
Proof. intros Ht. cbn [step]. rewrite Ht. by destruct (_play_loop o at_ w) as [[?|] ?]. Qed.

Lemma play_loop_track_busy o w :
  MusicPlayer.is_playing (player w) = true →
  busy o = true →
  _play_loop o InTrack w = (Some InTrack, add_trace [TimeWait 100] w).
Proof. intros Hp Hb. unfold _play_loop. unmonad. by rewrite Hp, Hb. Qed.

Lemma run_app evs1 evs2 w : run (evs1 ++ evs2) w = run evs2 (run evs1 w).
Proof. apply foldl_app. Qed.

(** While the mixer is busy the thread stays in the inner loop: each poll
    costs one 100 ms wait and changes nothing else. *)
Lemma track_sounding t os w :
  Forall (λ o, busy o = true) os →
  threads w !! t = Some InTrack →
  MusicPlayer.is_playing (player w) = true →
  let w' := run (Loop t <$> os) w in
  threads w' !! t = Some InTrack ∧
  player w' = player w ∧
  trace w' = (trace w ++ replicate (length os) (TimeWait 100))%list.
Proof.
  cbn zeta. intros Hos. revert w. induction Hos as [|o os Hb _ IH]; intros w Ht Hp.
  - cbn. by rewrite app_nil_r.
  - change (run (Loop t <$> o :: os) w) with (run (Loop t <$> os) (step w (Loop t o))).
    rewrite (step_loop t o InTrack w Ht), (play_loop_track_busy o w Hp Hb).
    set (w1 := set_threads _ _).
    destruct (IH w1) as (Ht' & Hp' & Htr'); [apply lookup_insert_eq|done|].
    split; [done|]. split; [done|].
    rewrite Htr'. cbn. by rewrite <- app_assoc.
Qed.

Lemma poll_waits_counted n :
  length (filter is_load (replicate n (TimeWait 100))) = 0 ∧
  length (filter is_poll_wait (replicate n (TimeWait 100))) = n ∧
  length (filter is_track_gap (replicate n (TimeWait 100))) = 0.
Proof.
  induction n as [|n (IH1 & IH2 & IH3)]; [done|].
  cbn [replicate]. rewrite filter_cons_False, filter_cons_True, filter_cons_False;
    [|by cbv..]. cbn. by rewrite IH1, IH2, IH3.
Qed.

Lemma one_track_played t i pl tr w :
  to_natural_end tr →
  i < length pl →
  playing_at t i pl w →
  let w' := run (track_events t tr) w in
  playing_at t ((i + 1) mod length pl) pl w' ∧
  ∃ out, trace w' = (trace w ++ out)%list ∧
         length (filter is_load out) = 1 ∧
         length (filter is_poll_wait out) = length (while_busy tr) ∧
         length (filter is_track_gap out) = 1.
Proof.
  intros (Hf & Hbs & Hb) Hi (Ht & Hp & Hpl & Hix). cbn zeta.
  destruct (lookup_lt_is_Some_2 pl i Hi) as [song Hsong].
  assert (MusicPlayer.current_playlist (player w) !! MusicPlayer.current_index (player w)
          = Some song) as Hsong' by (by rewrite Hpl, Hix).
  unfold track_events.
  change (run (Loop t (at_start tr) :: (Loop t <$> while_busy tr) ++ [Loop t (at_end tr)]) w)
    with (run ((Loop t <$> while_busy tr) ++ [Loop t (at_end tr)])
              (step w (Loop t (at_start tr)))).
  rewrite run_app.
  rewrite (step_loop t _ AtHead w Ht), (play_loop_track_started _ w song Hp Hsong' Hf).
  set (w1 := set_threads _ _).
  assert (player w1 = player w) as Hw1 by done.
  destruct (track_sounding t (while_busy tr) w1 Hbs) as (Ht2 & Hp2 & Htr2);
    [apply lookup_insert_eq|by rewrite Hw1|].
  set (w2 := run _ w1) in *.
  change (run [Loop t (at_end tr)] w2) with (step w2 (Loop t (at_end tr))).
  rewrite (step_loop t _ InTrack w2 Ht2).
  rewrite play_loop_track_finished;
    [|by rewrite Hp2, Hw1|rewrite Hp2, Hw1, Hpl; by destruct pl|done].
  split.
  - unfold playing_at. cbn. split; [apply lookup_insert_eq|].
    fold (player w2). by rewrite Hp2, Hw1, Hp, Hpl, Hix.
  - eexists. split.
    + cbn. fold (trace w2). rewrite Htr2. subst w1. cbn. fold (trace w).
      rewrite <- !app_assoc. reflexivity.
    + rewrite !filter_app, !length_app.
      destruct (poll_waits_counted (length (while_busy tr))) as (-> & -> & ->).
      repeat split; by vm_compute.
Qed.

(** X23: the album loops for as long as nobody stops it.  Thread [t] plays
    the tracks [trs] one after the other, each loaded and started without
    fault, polled any number of times while it sounds and then found at its
    end.  Afterwards the thread is at its [while] test again, the session
    still running on the same playlist at position [(i + length trs) mod n];
    on the way it made one load per track, one 100 ms wait per poll that
    found the mixer busy and one 500 ms gap per track. *)
Theorem album_loops t i pl trs w :
  Forall to_natural_end trs →
  i < length pl →
  playing_at t i pl w →
  let w' := run (plays_through t trs) w in
  playing_at t ((i + length trs) mod length pl) pl w' ∧
  ∃ out, trace w' = (trace w ++ out)%list ∧
         length (filter is_load out) = length trs ∧
         length (filter is_poll_wait out) = busy_polls trs ∧
         length (filter is_track_gap out) = length trs.
Proof.
  cbn zeta. intros Htrs. revert i w.
  induction Htrs as [|tr trs Htr _ IH]; intros i w Hi Hw.
  - cbn. rewrite Nat.add_0_r, Nat.mod_small by done. split; [done|].
    exists []. by rewrite app_nil_r.
  - unfold plays_through. rewrite fmap_cons. cbn [concat]. rewrite run_app.
    fold (plays_through t trs).
    destruct (one_track_played t i pl tr w Htr Hi Hw) as (Hw1 & out1 & Htr1 & Hl1 & Hq1 & Hg1).
    destruct (IH ((i + 1) mod length pl) (run (track_events t tr) w))
      as (Hw2 & out2 & Htr2 & Hl2 & Hq2 & Hg2);
      [apply Nat.mod_upper_bound; lia|done|].
    split.
    + replace ((i + length (tr :: trs)) mod length pl)
        with (((i + 1) mod length pl + length trs) mod length pl); [done|].
      rewrite Nat.Div0.add_mod_idemp_l. f_equal. cbn. lia.
    + exists (out1 ++ out2)%list. split; [by rewrite Htr2, Htr1, <- app_assoc|].
      rewrite !filter_app, !length_app. unfold busy_polls. cbn. 
      unfold busy_polls in Hq2. lia.
Qed.

(** Seven tracks into the three-track Jazz album, each polled twice while it
    sounded, the loop is at its second track again. *)
Lemma album_loops_witness :
  let heard := mkPlayed Scenario.finished [Scenario.sounding; Scenario.sounding]
                 Scenario.finished in
  let w' := run (plays_through 0 (replicate 7 heard)) Scenario.jazz in
  MusicPlayer.current_index (player w') = 1 ∧
  threads w' !! 0 = Some AtHead.
Proof.
  cbn zeta.
  destruct (album_loops 0 0
              ["/mnt/usb/Jazz/01 a.mp3"; "/mnt/usb/Jazz/02 b.mp3"; "/mnt/usb/Jazz/03 c.mp3"]
              (replicate 7 (mkPlayed Scenario.finished
                              [Scenario.sounding; Scenario.sounding] Scenario.finished))
              Scenario.jazz) as ((Ht & _ & _ & Hix) & _).
  - apply Forall_replicate. repeat split. repeat constructor.
  - cbn. lia.
  - repeat split.
  - split; [exact Hix|exact Ht].
Defined.

(** ** What every run keeps *)

Lemma play_loop_player o at_ w :
  player (_play_loop o at_ w).2 = player w ∨
  (MusicPlayer.is_playing (player w) = true ∧
   MusicPlayer.current_playlist (player w) ≠ [] ∧
   player (_play_loop o at_ w).2 =
     Assign.current_index
       ((MusicPlayer.current_index (player w) + 1)
          mod length (MusicPlayer.current_playlist (player w)))
       (player w)).
Proof.
  unfold _play_loop, except_handler. unmonad.
  destruct w as [[cfg [pl ix pg sh th]] ths n tr]. cbn.
  destruct at_, pg; cbn; try (by left).
  - case_bool_decide as Hne; cbn; [|by left].
    destruct (pl !! ix); cbn.
    + destruct (load_error o); cbn; [rewrite bool_decide_eq_true_2 by done; by right|].
      destruct (play_error o); cbn; [rewrite bool_decide_eq_true_2 by done; by right|].
      by left.
    + rewrite bool_decide_eq_true_2 by done. by right.
  - destruct (busy o); cbn; [by left|].
    destruct pl as [|f pl]; cbn; [by left|]. by right.
  - destruct (busy o); cbn; by left.
Qed.

Lemma filter_is_start_snoc l e :
  filter is_start (l ++ [e])%list
  = (filter is_start l ++ if is_start e then [e] else [])%list.
Proof.
  rewrite filter_app. f_equal. cbn. unfold filter, list_filter.
  by destruct (is_start e).
Qed.

Lemma stop_threads_lookup j w t a :
  stop_threads j w !! t = Some a → threads w !! t = Some a.
Proof.
  unfold stop_threads.
  destruct (MusicPlayer.playback_thread (player w)) as [t0|]; [|done].
  destruct j; [|done]. by intros [_ ?]%lookup_delete_Some.
Qed.

Section Consistency.
Variable cfg : Config.

Lemma consistent_same_state w w' :
  same_state w w' → consistent cfg w → consistent cfg w'.
Proof.
  intros (Hc & Ht & Hs) [].
  split; unfold cfg_of, player in *; rewrite ?Hc, ?Ht, ?Hs; done.
Qed.

Lemma boot_consistent ts : consistent cfg (boot cfg ts).
Proof.
  split; try done.
  intros t [a Ha]. change (threads (boot cfg ts)) with (∅ : gmap nat pc) in Ha.
  by rewrite lookup_empty in Ha.
Qed.

Lemma handle_new_tag_consistent env id w :
  Py.truthy_str id = true → consistent cfg w →
  consistent cfg (handle_new_tag env id w).2.
Proof.
  intros Hid Hw. pose proof Hw as [Hcfg Hflag Htag Hidle Hrange Hmap Hfresh Hstarts].
  destruct (get_album_info (cfg_of w) (Some id)) as [album shuffle] eqn:Hinfo.
  destruct (PyOpt.if_truthy album) as [a|] eqn:Halbum.
  - apply if_truthy_Some in Halbum as [-> Ht].
    destruct (playable env (cfg_of w) a) eqn:Hp.
    + destruct (handle_new_tag_started env id w a shuffle Hinfo Ht Hp)
        as (Hpl & Hth & Hsp & Hc).
      unfold ctl_rest in Hc. injection Hc as Hc1 Hc2 Hc3 Hc4.
      split; unfold cfg_of; rewrite ?Hpl, ?Hth, ?Hsp, ?Hc1, ?Hc2, ?Hc3, ?Hc4; try done.
      * intros _. cbn. unfold started_playlist.
        apply andb_prop in Hp as [_ Hne%bool_decide_eq_true].
        destruct shuffle; rewrite ?shuffle_length;
          destruct (album_tracks env (cfg_of w) a); cbn; (done || lia).
      * intros id' [= <-]. split; [done|]. exists a. split; [done|].
        by rewrite <- Hcfg.
      * intros t [at_ [[<- _]|[_ Hl]]%lookup_insert_Some]; [lia|].
        apply stop_threads_lookup in Hl. assert (t < spawned w); [|lia].
        apply Hfresh. by exists at_.
      * rewrite filter_is_start_snoc, length_app, Hstarts.
        destruct shuffle; cbn; lia.
    + eapply consistent_same_state; [|done].
      by eapply handle_new_tag_refused.
  - destruct (handle_new_tag_unknown env id w) as (Hpl & Hth & Hsp & Hc & _).
    { by rewrite Hinfo. }
    unfold ctl_rest in Hc. injection Hc as Hc1 Hc2 Hc3 Hc4.
    split; unfold cfg_of; rewrite ?Hpl, ?Hth, ?Hsp, ?Hc1, ?Hc2, ?Hc3, ?Hc4; try done.
    by rewrite filter_is_start_snoc, app_nil_r.
Qed.

Lemma handle_tag_removed_consistent env w :
  consistent cfg w → consistent cfg (handle_tag_removed env w).2.
Proof.
  intros [Hcfg Hflag Htag Hidle Hrange Hmap Hfresh Hstarts].
  destruct (handle_tag_removed_spec env w) as (Hpl & Hth & Hsp & Hc).
  unfold ctl_rest in Hc. injection Hc as Hc1 Hc2 Hc3 Hc4.
  split; unfold cfg_of; rewrite ?Hpl, ?Hth, ?Hsp, ?Hc1, ?Hc2, ?Hc3, ?Hc4; try done.
  - intros t [at_ Hl]. apply stop_threads_lookup in Hl. apply Hfresh. by exists at_.
  - rewrite filter_is_start_snoc, length_app, Hstarts.
    destruct (get_album_info _ _).2; cbn; lia.
Qed.

Lemma step_consistent w ev : consistent cfg w → consistent cfg (step w ev).
Proof.
  intros Hw. destruct ev as [env|t o]; cbn [step].
  - destruct (tick_dispatched env w) as (Hd & _).
    apply (consistent_same_state _ _ Hd). unfold dispatched.
    pose proof (consistent_same_state _ _ (read_tag_same_state (sensor env) w) Hw)
      as Hw0.
    destruct (PyOpt.if_truthy _) as [id|] eqn:Hid.
    + case_bool_decide; [|done].
      apply if_truthy_Some in Hid as [_ Hid]. by apply handle_new_tag_consistent.
    + destruct (Py.truthy _); [|done]. by apply handle_tag_removed_consistent.
  - destruct (threads w !! t) as [at_|] eqn:Hat; [|done].
    destruct (play_loop_frame o at_ w) as (Hth & _ & Hsp & Hc).
    pose proof (play_loop_player o at_ w) as Hpl.
    destruct Hw as [Hcfg Hflag Htag Hidle Hrange Hmap Hfresh Hstarts].
    destruct (_play_loop o at_ w) as [next w'] eqn:Hrun. cbn [fst snd] in *.
    unfold ctl_rest in Hc. injection Hc as Hc1 Hc2 Hc3 Hc4.
    assert (consistent cfg w') as Hw'.
    { split; unfold cfg_of; rewrite ?Hth, ?Hsp, ?Hc1, ?Hc2, ?Hc3, ?Hc4; try done.
      - destruct Hpl as [->|(_ & _ & ->)]; done.
      - destruct Hpl as [->|(Hp & _ & ->)]; [done|]. cbn. congruence.
      - destruct Hpl as [->|(Hp & Hne & ->)]; [done|]. cbn. intros _.
        apply Nat.mod_upper_bound. by destruct (MusicPlayer.current_playlist (player w)).
      - destruct Hpl as [->|(_ & _ & ->)]; done. }
    destruct Hw' as [Hcfg' Hflag' Htag' Hidle' Hrange' Hmap' Hfresh' Hstarts'].
    destruct next as [at'|]; split; try done; cbn.
    + intros t' [a [[<- _]|[_ Hl]]%lookup_insert_Some].
      * rewrite Hsp. apply Hfresh. by exists at_.
      * apply Hfresh'. by exists a.
    + intros t' [a [_ Hl]%lookup_delete_Some]. apply Hfresh'. by exists a.
Qed.

Lemma run_consistent evs w : consistent cfg w → consistent cfg (run evs w).
Proof.
  revert w. induction evs as [|ev evs IH]; intros w Hw; [done|].
  cbn. apply IH. by apply step_consistent.
Qed.
End Consistency.

(** X1: in every state a booted process can reach, whatever the sensor, the
    drive, the mixer and the joins do, the controller's [is_playing] flag,
    the player's [is_playing] flag and the presence of a current tag agree,
    and the configuration is the one loaded at start. *)
Theorem controller_and_player_agree cfg ts evs :
  let w := run evs (boot cfg ts) in
  cfg_of w = cfg ∧
  NFCMusicController.is_playing (ctl w) = MusicPlayer.is_playing (player w) ∧
  (MusicPlayer.is_playing (player w) = true ↔
   is_Some (NFCMusicController.current_nfc_id (ctl w))).
Proof.
  cbn zeta. destruct (run_consistent cfg evs _ (boot_consistent cfg ts))
    as [Hcfg Hflag Htag _ _ _ _ _].
  split; [done|]. split; [done|].
  rewrite <- Hflag, Htag. apply bool_decide_eq_true.
Qed.

Lemma consistent_position cfg w :
  consistent cfg w →
  (MusicPlayer.is_playing (player w) = false ∧ Idle (player w)) ∨
  (MusicPlayer.is_playing (player w) = true ∧
   MusicPlayer.current_index (player w) < length (MusicPlayer.current_playlist (player w)) ∧
   is_Some (MusicPlayer.current_playlist (player w) !! MusicPlayer.current_index (player w))).
Proof.
  intros [_ _ _ Hidle Hrange _ _ _].
  destruct (MusicPlayer.is_playing (player w)) eqn:Hp.
  - right. split; [done|]. split; [by apply Hrange|].
    by apply lookup_lt_is_Some_2, Hrange.
  - left. split; [done|]. by apply Hidle.
Qed.

(** X2: in every reachable state the player is either idle (not playing, not
    shuffled, empty playlist, position 0) or playing with its position inside
    the playlist, so the subscript [current_playlist[current_index]] at the
    head of [_play_loop] finds a track. *)
Theorem position_in_range cfg ts evs :
  let p := player (run evs (boot cfg ts)) in
  (MusicPlayer.is_playing p = false ∧ Idle p) ∨
  (MusicPlayer.is_playing p = true ∧
   MusicPlayer.current_index p < length (MusicPlayer.current_playlist p) ∧
   is_Some (MusicPlayer.current_playlist p !! MusicPlayer.current_index p)).
Proof.
  cbn zeta. apply (consistent_position cfg).
  apply run_consistent, boot_consistent.
Qed.

(** X3: in every reachable state [get_current_song] returns without raising:
    [None] when nothing plays, and the file name of the track at the current
    position when a session is playing; it changes nothing. *)
Theorem get_current_song_never_raises cfg ts evs :
  let w := run evs (boot cfg ts) in
  (get_current_song w).2 = w ∧
  match (get_current_song w).1 with
  | Returned None => MusicPlayer.is_playing (player w) = false
  | Returned (Some name) =>
      MusicPlayer.is_playing (player w) = true ∧
      ∃ song,
        MusicPlayer.current_playlist (player w) !! MusicPlayer.current_index (player w)
          = Some song ∧
        name = Py.basename song
  | Raised _ => False
  end.
Proof.
  cbn zeta. set (w := run evs (boot cfg ts)).
  assert (consistent cfg w) as Hw by apply run_consistent, boot_consistent.
  destruct (consistent_position cfg w Hw) as [(Hp & _)|(Hp & Hlt & [song Hsong])];
    unfold get_current_song; unmonad.
  - rewrite Hp. cbn. done.
  - rewrite Hp, Hsong.
    rewrite (bool_decide_eq_true_2 _ (lookup_nonempty _ _ _ Hsong)). cbn.
    split; [done|]. split; [done|]. by exists song.
Qed.

(** X4: in every reachable state with a current tag, that tag is a non-empty
    identifier mapped in the configuration to a non-empty album name, and the
    player's [is_shuffled] flag is the shuffle preference of that mapping; so
    the [stopped]/[stopped_shuffled] event written when the tag goes away
    matches the [started]/[started_shuffled] event written when it came. *)
Theorem shuffle_flag_matches_mapping cfg ts evs id :
  let w := run evs (boot cfg ts) in
  NFCMusicController.current_nfc_id (ctl w) = Some id →
  Py.truthy_str id = true ∧
  ∃ album, Py.truthy_str album = true ∧
    get_album_info cfg (Some id) = (Some album, MusicPlayer.is_shuffled (player w)).
Proof.
  cbn zeta. destruct (run_consistent cfg evs _ (boot_consistent cfg ts))
    as [_ _ _ _ _ Hmap _ _].
  apply Hmap.
Qed.

(** After tag "333" the shuffled Pop session is what the mapping asks for. *)
Lemma shuffle_flag_matches_mapping_witness :
  ∃ album, Py.truthy_str album = true ∧
    get_album_info Scenario.cfg (Some "333")
    = (Some album,
       MusicPlayer.is_shuffled
         (player (run [Tick (Scenario.env (Scenario.tag 333) true)] Scenario.w0))).
Proof.
  exact (proj2 (shuffle_flag_matches_mapping Scenario.cfg "2026-01-01 11:59:00"
                  [Tick (Scenario.env (Scenario.tag 333) true)] "333" eq_refl)).
Defined.

(** X5: every session start is logged exactly once: in every reachable state
    the number of [started]/[started_shuffled] events in the activity log is
    the number of playback threads launched so far plus one, the logger's own
    start-up line; and every live thread is one of those launched. *)
Theorem every_start_is_logged cfg ts evs :
  let w := run evs (boot cfg ts) in
  length (filter is_start (NFCMusicController.logger (ctl w))) = S (spawned w) ∧
  ∀ t, is_Some (threads w !! t) → t < spawned w.
Proof.
  cbn zeta. destruct (run_consistent cfg evs _ (boot_consistent cfg ts))
    as [_ _ _ _ _ _ Hfresh Hstarts].
  done.
Qed.

(** The log after one event: at most one more entry. *)
Lemma step_log w ev :
  ∃ l, NFCMusicController.logger (ctl (step w ev))
       = (NFCMusicController.logger (ctl w) ++ l)%list ∧
       (length l ≤ (if is_tick ev then 1 else 0))%nat.
Proof.
  assert (∀ w1 w2, ctl_rest w1 = ctl_rest w2 →
    NFCMusicController.logger (ctl w1) = NFCMusicController.logger (ctl w2)) as Hlog
    by (unfold ctl_rest; intros ?? [=]; done).
  destruct ev as [env|t o]; cbn [step is_tick].
  - destruct (tick_dispatched env w) as (Hd & _).
    rewrite (Hlog _ _ (same_state_ctl_rest _ _ Hd)). unfold dispatched.
    pose proof (Hlog _ _ (same_state_ctl_rest _ _ (read_tag_same_state (sensor env) w)))
      as H0.
    set (w0 := (read_tag (sensor env) w).2) in *.
    assert (∃ l, NFCMusicController.logger (ctl w0)
                 = (NFCMusicController.logger (ctl w) ++ l)%list ∧ (length l ≤ 1)%nat)
      as Hsame.
    { exists []. rewrite app_nil_r. split; [done|cbn; lia]. }
    destruct (PyOpt.if_truthy _) as [id|]; [case_bool_decide|destruct (Py.truthy _)];
      try exact Hsame.
    + destruct (get_album_info (cfg_of w0) (Some id)) as [album shuffle] eqn:Hinfo.
      destruct (PyOpt.if_truthy album) as [a|] eqn:Halbum.
      * apply if_truthy_Some in Halbum as [-> Ht].
        destruct (playable env (cfg_of w0) a) eqn:Hp.
        -- destruct (handle_new_tag_started env id w0 a shuffle Hinfo Ht Hp)
             as (_ & _ & _ & Hc).
           unfold ctl_rest in Hc. injection Hc as _ -> _ _. rewrite H0.
           eexists. split; [done|cbn; lia].
        -- by rewrite (Hlog _ _ (same_state_ctl_rest _ _
                         (handle_new_tag_refused env id w0 a shuffle Hinfo Ht Hp))).
      * destruct (handle_new_tag_unknown env id w0) as (_ & _ & _ & Hc & _).
        { by rewrite Hinfo. }
        unfold ctl_rest in Hc. injection Hc as _ -> _ _. rewrite H0.
        eexists. split; [done|cbn; lia].
    + destruct (handle_tag_removed_spec env w0) as (_ & _ & _ & Hc).
      unfold ctl_rest in Hc. injection Hc as _ -> _ _. rewrite H0.
      eexists. split; [done|cbn; lia].
  - exists []. rewrite app_nil_r. split; [|cbn; lia].
    destruct (threads w !! t) as [at_|]; [|done].
    pose proof (play_loop_frame o at_ w) as (_ & _ & _ & Hc).
    destruct (_play_loop o at_ w) as [[at'|] w']; cbn in *; by apply (Hlog w' w).
Qed.

Lemma ticks_cons ev evs :
  ticks (ev :: evs) = ((if is_tick ev then 1 else 0) + ticks evs)%nat.
Proof. unfold ticks. rewrite filter_cons. by destruct ev. Qed.

(** X6: the activity log is append-only: over any sequence of events, from
    any state, the log at the end is the log at the start followed by at most
    one new entry per controller tick; steps of the playback thread never
    write to it. *)
Theorem log_is_append_only evs w :
  ∃ l, NFCMusicController.logger (ctl (run evs w))
       = (NFCMusicController.logger (ctl w) ++ l)%list ∧
       (length l ≤ ticks evs)%nat.
Proof.
  revert w. induction evs as [|ev evs IH]; intros w.
  - exists []. rewrite app_nil_r. split; [done|cbn; lia].
  - destruct (step_log w ev) as (l1 & H1 & Hl1).
    destruct (IH (step w ev)) as (l2 & H2 & Hl2).
    exists (l1 ++ l2)%list. split.
    + change (run (ev :: evs) w) with (run evs (step w ev)).
      rewrite H2, H1. by rewrite <- app_assoc.
    + rewrite length_app, ticks_cons. lia.
Qed.

(** ** More about one tick *)

Lemma same_state_trans w1 w2 w3 :
  same_state w1 w2 → same_state w2 w3 → same_state w1 w3.
Proof. unfold same_state. intros (H1 & H2 & H3) (-> & -> & ->). done. Qed.




(** X8: a tick on which the sensor yields what was seen before, the same tag
    or still no tag, does nothing but print and sleep: controller, player and
    threads are untouched, the mixer is not called and nothing is logged; a
    tag left on the reader does not restart its album. *)
Theorem steady_tick env w :
  read_value (sensor env) = NFCMusicController.current_nfc_id (ctl w) →
  same_state w (tick env w).2 ∧
  ∃ out, trace (tick env w).2 = (trace w ++ out ++ [Sleep 500])%list ∧
         Forall is_print out.
Proof.
  intros Hr.
  destruct (tick_dispatched env w) as (Hs & Htr).
  pose proof (read_tag_same_state (sensor env) w) as Hs0.
  destruct (read_tag_trace (sensor env) w) as (out0 & Htr0 & Hout0).
  assert (dispatched env w = (read_tag (sensor env) w).2) as Hd.
  { unfold dispatched. rewrite <- Hr.
    destruct (read_value (sensor env)) as [id|] eqn:Hv.
    - rewrite <- Hv, (if_truthy_read_value _ _ Hv). by rewrite bool_decide_eq_false_2 by auto.
    - done. }
  rewrite Hd in Hs, Htr. split.
  - by eapply same_state_trans.
  - exists out0. split; [|done]. rewrite Htr, Htr0. by rewrite <- app_assoc.
Qed.

(** Tag "111" is still on the reader while Jazz plays. *)
Lemma steady_tick_witness :
  same_state Scenario.jazz (tick (Scenario.env (Scenario.tag 111) true) Scenario.jazz).2.
Proof.
  exact (proj1 (steady_tick (Scenario.env (Scenario.tag 111) true) Scenario.jazz eq_refl)).
Defined.

(** X9: a tick that reads a new tag mapped to an album whose path
    [os.path.exists] accepts and for whose pattern [<album path>/*.mp3]
    [glob] returns at least one path starts it: the previous session is
    stopped, the player gets the paths [glob] returned as its playlist
    (sorted, or shuffled if the mapping asks for it) at position 0 with a
    fresh thread, the tag becomes the current tag, and exactly one event is
    logged, [started] or [started_shuffled]. *)
Theorem new_tag_starts_album env w id album shuffle :
  read_value (sensor env) = Some id →
  Some id ≠ NFCMusicController.current_nfc_id (ctl w) →
  get_album_info (cfg_of w) (Some id) = (Some album, shuffle) →
  Py.truthy_str album = true →
  playable env (cfg_of w) album = true →
  let w' := (tick env w).2 in
  player w' = MusicPlayer.mk (started_playlist env (cfg_of w) album shuffle)
                0 true shuffle (Some (spawned w)) ∧
  threads w' = <[spawned w := AtHead]> (stop_threads (join_in_time env) w) ∧
  NFCMusicController.current_nfc_id (ctl w') = Some id ∧
  NFCMusicController.is_playing (ctl w') = true ∧
  NFCMusicController.logger (ctl w') =
    (NFCMusicController.logger (ctl w)
       ++ [mkEvent (now env) id album
             (if shuffle then started_shuffled else started)])%list.
Proof.
  intros Hr Hne Hinfo Ht Hp. cbn zeta.
  destruct (tick_dispatched env w) as (Hs & _).
  rewrite (tick_new_tag env w id Hr Hne) in Hs.
  pose proof (read_tag_same_state (sensor env) w) as Hs0.
  set (w0 := (read_tag (sensor env) w).2) in *.
  rewrite <- (same_state_cfg _ _ Hs0) in Hinfo, Hp.
  destruct (handle_new_tag_started env id w0 album shuffle Hinfo Ht Hp)
    as (Hpl & Hth & _ & Hc).
  pose proof (same_state_ctl_rest _ _ Hs) as Hc'. rewrite Hc in Hc'.
  rewrite (same_state_player _ _ Hs), Hpl.
  destruct Hs as (_ & -> & _). rewrite Hth, (same_state_stop_threads _ _ _ Hs0).
  rewrite (same_state_cfg _ _ Hs0).
  destruct Hs0 as (Hc0 & _ & ->). rewrite Hc0 in Hc'.
  unfold ctl_rest in Hc'. injection Hc' as _ -> -> ->.
  repeat split.
Qed.

(** Tag "222" replaces tag "111": Rock is started and logged. *)
Lemma new_tag_starts_album_witness :
  let w' := (tick (Scenario.env (Scenario.tag 222) true) Scenario.jazz).2 in
  MusicPlayer.current_playlist (player w') = ["/mnt/usb/Rock/x.mp3"] ∧
  NFCMusicController.logger (ctl w') =
    (NFCMusicController.logger (ctl Scenario.jazz)
       ++ [mkEvent "2026-01-01 12:00:00" "222" "Rock" started])%list.
Proof.
  destruct (new_tag_starts_album (Scenario.env (Scenario.tag 222) true) Scenario.jazz
              "222" "Rock" false) as (Hpl & _ & _ & _ & Hlog).
  - reflexivity.
  - vm_compute. discriminate.
  - reflexivity.
  - reflexivity.
  - reflexivity.
  - cbn zeta. split; [by rewrite Hpl|exact Hlog].
Defined.

(** X10: a tick that reads a new tag mapped to an album whose path
    [os.path.exists] denies, or for whose pattern [<album path>/*.mp3] [glob]
    returns no path, changes nothing: whatever is playing goes on playing, no
    event is logged, the tag is not recorded (so the next tick tries again),
    and the mixer is not called. *)
Theorem new_tag_with_missing_album env w id album shuffle :
  read_value (sensor env) = Some id →
  Some id ≠ NFCMusicController.current_nfc_id (ctl w) →
  get_album_info (cfg_of w) (Some id) = (Some album, shuffle) →
  Py.truthy_str album = true →
  playable env (cfg_of w) album = false →
  same_state w (tick env w).2 ∧
  filter is_load (trace (tick env w).2) = filter is_load (trace w) ∧
  MusicStop ∉ drop (length (trace w)) (trace (tick env w).2).
Proof.
  intros Hr Hne Hinfo Ht Hp.
  destruct (tick_dispatched env w) as (Hs & Htr).
  rewrite (tick_new_tag env w id Hr Hne) in Hs, Htr.
  pose proof (read_tag_same_state (sensor env) w) as Hs0.
  destruct (read_tag_trace (sensor env) w) as (out0 & Htr0 & Hout0).
  set (w0 := (read_tag (sensor env) w).2) in *.
  rewrite <- (same_state_cfg _ _ Hs0) in Hinfo, Hp.
  pose proof (handle_new_tag_refused env id w0 album shuffle Hinfo Ht Hp) as Hs1.
  split.
  { eapply same_state_trans; [|exact Hs]. by eapply same_state_trans. }
  assert (∃ out1, trace (handle_new_tag env id w0).2 = (trace w0 ++ out1)%list
                  ∧ Forall is_print out1) as (out1 & Htr1 & Hout1).
  { clear Hs Htr Hs1. revert Hinfo Ht Hp.
    unfold handle_new_tag, play_album, playable, album_tracks, album_path. unmonad.
    fold (cfg_of w0). intros -> Ht Hp. cbn [PyOpt.if_truthy]. rewrite Ht.
    cbn in *. unfold cfg_of in *.
    destruct (path_exists env _); cbn in *.
    - destruct (Py.sort _) as [|f fs]; cbn in *; [|done].
      eexists. rewrite <- !app_assoc. split; [reflexivity|]. repeat constructor.
    - eexists. rewrite <- !app_assoc. split; [reflexivity|]. repeat constructor. }
  assert (Forall is_print (out0 ++ out1)%list) as Hout by (by apply Forall_app).
  assert (trace (tick env w).2 = (trace w ++ (out0 ++ out1) ++ [Sleep 500])%list) as ->.
  { rewrite Htr, Htr1, Htr0. by rewrite <- !app_assoc. }
  revert Hout. generalize (out0 ++ out1)%list. intros out Hout. split.
  - rewrite !filter_app. cbn. rewrite app_nil_r.
    replace (filter is_load out) with (@nil effect); [by rewrite app_nil_r|].
    symmetry. induction Hout as [|e out He _ IH]; [done|].
    rewrite filter_cons. destruct e; cbn in *; done.
  - rewrite drop_app_length. intros [Hin|Hin]%elem_of_app.
    + rewrite Forall_forall in Hout. by apply Hout in Hin.
    + by apply list_elem_of_singleton in Hin.
Qed.

(** Tag "444" points to a folder that is not on the drive: Jazz plays on. *)
Lemma new_tag_with_missing_album_witness :
  same_state Scenario.jazz (tick (Scenario.env (Scenario.tag 444) true) Scenario.jazz).2.
Proof.
  refine (proj1 (new_tag_with_missing_album (Scenario.env (Scenario.tag 444) true)
                   Scenario.jazz "444" "Gone" false _ _ _ _ _)).
  - reflexivity.
  - vm_compute. discriminate.
  - reflexivity.
  - reflexivity.
  - reflexivity.
Defined.

(** ** The order of an album that is not shuffled *)

Lemma str_compare_le_trans a b c :
  String.compare a b ≠ Gt → String.compare b c ≠ Gt → String.compare a c ≠ Gt.
Proof.
  revert b c. induction a as [|x a IH]; intros [|y b] [|z c]; cbn; try done.
  unfold Ascii.compare.
  destruct (N.compare_spec (N_of_ascii x) (N_of_ascii y)),
           (N.compare_spec (N_of_ascii y) (N_of_ascii z)),
           (N.compare_spec (N_of_ascii x) (N_of_ascii z));
    try done; try lia; eauto.
Qed.

Lemma str_le_compare a b : Py.str_le a b ↔ String.compare a b ≠ Gt.
Proof. unfold Py.str_le, String.leb. by destruct (String.compare a b). Qed.

#[global] Instance str_le_trans : Transitive Py.str_le.
Proof. intros a b c. rewrite !str_le_compare. apply str_compare_le_trans. Qed.

#[global] Instance str_le_total : Total Py.str_le.
Proof. intros a b. apply String.leb_total. Qed.

#[global] Instance str_le_antisymm : AntiSymm (=) Py.str_le.
Proof. intros a b. apply String.leb_antisym. Qed.

Lemma sort_sorted l : StronglySorted Py.str_le (Py.sort l).
Proof. apply StronglySorted_merge_sort; apply _. Qed.

Lemma sort_canonical l1 l2 : l1 ≡ₚ l2 → Py.sort l1 = Py.sort l2.
Proof.
  intros Hp. apply (StronglySorted_unique Py.str_le); try apply sort_sorted.
  by rewrite !sort_Permutation.
Qed.

(** X11: when the album folder holds MP3 files, [play_album] without shuffle
    installs exactly the files [glob] found, each once, in ascending order of
    their paths, at position 0 and with the shuffle flag off. *)
Theorem unshuffled_album_is_sorted env album_name w :
  playable env (cfg_of w) album_name = true →
  let p := player (play_album env album_name false w).2 in
  MusicPlayer.current_playlist p
    ≡ₚ glob env (Py.path_join (album_path (cfg_of w) album_name) "*.mp3") ∧
  StronglySorted Py.str_le (MusicPlayer.current_playlist p) ∧
  MusicPlayer.current_index p = 0 ∧
  MusicPlayer.is_shuffled p = false ∧
  MusicPlayer.is_playing p = true.
Proof.
  intros Hp. cbn zeta.
  destruct (play_album_accepted env album_name false w Hp) as (-> & _). cbn.
  unfold album_tracks. split; [apply sort_Permutation|]. split; [apply sort_sorted|done].
Qed.

(** Jazz is listed by the drive as 03, 01, 02 and played as 01, 02, 03. *)
Lemma unshuffled_album_is_sorted_witness :
  StronglySorted Py.str_le
    (MusicPlayer.current_playlist
       (player (play_album (Scenario.env Scenario.no_tag true) "Jazz" false Scenario.w0).2)) ∧
  MusicPlayer.current_playlist
    (player (play_album (Scenario.env Scenario.no_tag true) "Jazz" false Scenario.w0).2)
  = ["/mnt/usb/Jazz/01 a.mp3"; "/mnt/usb/Jazz/02 b.mp3"; "/mnt/usb/Jazz/03 c.mp3"].
Proof.
  split; [|reflexivity].
  exact (proj1 (proj2 (unshuffled_album_is_sorted
                         (Scenario.env Scenario.no_tag true) "Jazz" Scenario.w0 eq_refl))).
Defined.

(** X12: the order of an unshuffled album does not depend on the order in
    which the drive lists its files: two environments whose [glob] results
    for the album are rearrangements of each other give the same playlist. *)
Theorem play_order_is_canonical env1 env2 album_name w :
  playable env1 (cfg_of w) album_name = true →
  playable env2 (cfg_of w) album_name = true →
  glob env1 (Py.path_join (album_path (cfg_of w) album_name) "*.mp3")
    ≡ₚ glob env2 (Py.path_join (album_path (cfg_of w) album_name) "*.mp3") →
  MusicPlayer.current_playlist (player (play_album env1 album_name false w).2)
  = MusicPlayer.current_playlist (player (play_album env2 album_name false w).2).
Proof.
  intros Hp1 Hp2 Hperm.
  destruct (play_album_accepted env1 album_name false w Hp1) as (-> & _).
  destruct (play_album_accepted env2 album_name false w Hp2) as (-> & _).
  cbn. unfold album_tracks. by apply sort_canonical.
Qed.

(** The same drive, listing the Jazz folder in reverse. *)
Lemma play_order_is_canonical_witness :
  let env2 := mkEnv Scenario.no_tag Scenario.fs_exists
                (λ p, reverse (Scenario.fs_glob p)) (λ n, 0) true "2026-01-01 12:00:00" in
  MusicPlayer.current_playlist
    (player (play_album (Scenario.env Scenario.no_tag true) "Jazz" false Scenario.w0).2)
  = MusicPlayer.current_playlist (player (play_album env2 "Jazz" false Scenario.w0).2).
Proof.
  cbn zeta. apply play_order_is_canonical.
  - reflexivity.
  - reflexivity.
  - cbn [glob]. symmetry. apply reverse_Permutation.
Defined.

(** ** Interrupt, and threads that outlive a stop *)



(** X14: a playback thread that stands at one of its two loop tests, the
    outer [while] or the poll of [get_busy], when the player is idle, for
    instance after a join that timed out while the thread slept in its
    100 ms wait, leaves [_play_loop] at its second test at the latest
    whatever the mixer reports, provided no new session starts in between;
    on the way it neither advances the position nor loads a track nor
    prints.  Nothing is said of a thread that passed the outer test before
    the player became idle and has not reached the poll yet. *)
Theorem stopped_thread_exits t at_ o1 o2 w :
  Idle (player w) →
  threads w !! t = Some at_ →
  let w' := run [Loop t o1; Loop t o2] w in
  threads w' = delete t (threads w) ∧
  ctl w' = ctl w ∧ spawned w' = spawned w ∧ trace w' = trace w.
Proof.
  intros Hidle Ht. cbn zeta.
  destruct (play_loop_exits_after_stop o1 w Hidle) as (Hin & Hhead).
  change (run [Loop t o1; Loop t o2] w)
    with (step (step w (Loop t o1)) (Loop t o2)).
  rewrite (step_loop t o1 at_ w Ht).
  destruct at_.
  - rewrite Hhead. set (w1 := set_threads (delete t) w).
    assert (threads w1 !! t = None) as Hn by apply lookup_delete_eq.
    cbn [step]. rewrite Hn. done.
  - rewrite Hin. set (w1 := set_threads _ w).
    assert (Idle (player w1)) as Hidle1 by done.
    destruct (play_loop_exits_after_stop o2 w1 Hidle1) as (_ & Hhead1).
    rewrite (step_loop t o2 AtHead w1) by apply lookup_insert_eq.
    rewrite Hhead1. unfold set_threads, w1. cbn.
    by rewrite delete_insert_eq.
Qed.

(** The Jazz thread survived a join that timed out when the tag was taken
    away; two steps later it is gone. *)
Lemma stopped_thread_exits_witness :
  let w := run [Tick (Scenario.env Scenario.no_tag false)] Scenario.jazz in
  threads w !! 0 = Some AtHead ∧
  threads (run [Loop 0 Scenario.finished; Loop 0 Scenario.unreadable] w) = ∅.
Proof.
  cbn zeta. split; [reflexivity|].
  destruct (stopped_thread_exits 0 AtHead Scenario.finished Scenario.unreadable
              (run [Tick (Scenario.env Scenario.no_tag false)] Scenario.jazz))
    as (Hth & _).
  - vm_compute. done.
  - reflexivity.
  - rewrite Hth.
    change (threads (run [Tick (Scenario.env Scenario.no_tag false)] Scenario.jazz))
      with ({[0 := AtHead]} : gmap nat pc).
    apply delete_singleton_eq.
Defined.

(** ** An album whose files cannot be played *)

Lemma one_fault t i pl o e w :
  fault o = Some e →
  i < length pl →
  playing_at t i pl w →
  playing_at t ((i + 1) mod length pl) pl (step w (Loop t o)) ∧
  ∃ out, trace (step w (Loop t o)) = (trace w ++ out)%list ∧
         length (filter is_load out) = 1 ∧
         length (filter is_retry_wait out) = 1.
Proof.
  intros Hf Hi (Ht & Hp & Hpl & Hix).
  destruct (lookup_lt_is_Some_2 pl i Hi) as [song Hsong].
  assert (MusicPlayer.current_playlist (player w) !! MusicPlayer.current_index (player w)
          = Some song) as Hsong' by (by rewrite Hpl, Hix).
  rewrite (step_loop t o AtHead w Ht).
  rewrite (play_loop_track_faulted o w song e Hp Hsong' Hf).
  split.
  - unfold playing_at. cbn. split; [apply lookup_insert_eq|].
    fold (player w). by rewrite Hp, Hpl, Hix.
  - eexists. split; [reflexivity|].
    destruct (load_error o); done.
Qed.

(** X15: a session whose every track fails to load or start is not ended by
    the faults: after [k] failed attempts the thread is still in its loop,
    the player still playing the same playlist, at position [(i + k) mod n],
    having made [k] load attempts separated by [k] one-second waits. *)
Theorem faulty_album_keeps_cycling t i pl o e k w :
  fault o = Some e →
  i < length pl →
  playing_at t i pl w →
  let w' := run (replicate k (Loop t o)) w in
  playing_at t ((i + k) mod length pl) pl w' ∧
  ∃ out, trace w' = (trace w ++ out)%list ∧
         length (filter is_load out) = k ∧
         length (filter is_retry_wait out) = k.
Proof.
  intros Hf. cbn zeta. revert i w. induction k as [|k IH]; intros i w Hi Hw.
  - cbn. rewrite Nat.add_0_r, Nat.mod_small by done. split; [done|].
    exists []. by rewrite app_nil_r.
  - change (run (replicate (S k) (Loop t o)) w)
      with (run (replicate k (Loop t o)) (step w (Loop t o))).
    destruct (one_fault t i pl o e w Hf Hi Hw) as (Hw1 & out1 & Htr1 & Hl1 & Hr1).
    destruct (IH ((i + 1) mod length pl) (step w (Loop t o))) as (Hw2 & out2 & Htr2 & Hl2 & Hr2);
      [apply Nat.mod_upper_bound; lia|done|].
    split.
    + replace ((i + S k) mod length pl)
        with (((i + 1) mod length pl + k) mod length pl); [done|].
      rewrite Nat.Div0.add_mod_idemp_l. f_equal. lia.
    + exists (out1 ++ out2)%list. split; [by rewrite Htr2, Htr1, <- app_assoc|].
      rewrite !filter_app, !length_app. lia.
Qed.

(** None of the three Jazz files can be read: after four attempts the loop
    is at the second track. *)
Lemma faulty_album_keeps_cycling_witness :
  MusicPlayer.current_index
    (player (run (replicate 4 (Loop 0 Scenario.unreadable)) Scenario.jazz)) = 1 ∧
  MusicPlayer.is_playing
    (player (run (replicate 4 (Loop 0 Scenario.unreadable)) Scenario.jazz)) = true.
Proof.
  destruct (faulty_album_keeps_cycling 0 0
              ["/mnt/usb/Jazz/01 a.mp3"; "/mnt/usb/Jazz/02 b.mp3"; "/mnt/usb/Jazz/03 c.mp3"]
              Scenario.unreadable "Unrecognized audio format" 4 Scenario.jazz)
    as ((_ & Hp & _ & Hix) & _).
  - reflexivity.
  - cbn. lia.
  - repeat split.
  - split; [exact Hix|exact Hp].
Defined.

(** ** What the sensor reports *)

(** X16: a read that succeeds with a non-zero id reports the id in decimal,
    which is never the empty string, prints nothing and changes nothing; two
    different ids are never reported as the same tag; id 0 and no id are
    reported as no tag. *)
Theorem read_tag_identifies_cards (z1 z2 : Z) text1 text2 w :
  z1 ≠ 0%Z → z2 ≠ 0%Z →
  read_tag (ReadOk (Some z1) text1) w = (Some (pretty z1), w) ∧
  Py.truthy (Some (pretty z1)) = true ∧
  ((read_tag (ReadOk (Some z1) text1) w).1 = (read_tag (ReadOk (Some z2) text2) w).1 →
   z1 = z2) ∧
  read_tag (ReadOk (Some 0%Z) text1) w = (None, w) ∧
  read_tag (ReadOk None text1) w = (None, w).
Proof.
  intros H1 H2. unfold read_tag. unmonad. cbn.
  apply Z.eqb_neq in H1 as E1. apply Z.eqb_neq in H2 as E2. rewrite E1, E2. cbn.
  repeat split.
  - unfold Py.truthy_str. apply negb_true_iff, String.eqb_neq, pretty_Z_nonempty.
  - intros [= Heq]. by apply (inj pretty).
Qed.

Lemma read_tag_identifies_cards_witness :
  read_tag (Scenario.tag 111) Scenario.w0 = (Some "111", Scenario.w0) ∧
  read_tag (Scenario.tag 0) Scenario.w0 = (None, Scenario.w0).
Proof.
  destruct (read_tag_identifies_cards 111 222 (Some "") (Some "") Scenario.w0)
    as (H1 & _ & _ & H0 & _); [done..|].
  split; [exact H1|exact H0].
Defined.

(** ** Reading the log back *)

(** X17: [get_recent_activity(n)] with [n >= 1] returns the last [n] lines of
    the file, or all of them when the file has fewer, and changes nothing;
    with [n = 0] it returns the whole file, not an empty list, because
    [all_lines[-0:]] is the full slice; when the file cannot be read it
    returns the empty list. *)
Theorem get_recent_activity_tail all_lines n e w :
  get_recent_activity (Returned all_lines) (Z.of_nat (S n)) w
    = (drop (length all_lines - S n) all_lines, w) ∧
  length (get_recent_activity (Returned all_lines) (Z.of_nat (S n)) w).1
    = min (S n) (length all_lines) ∧
  get_recent_activity (Returned all_lines) 0 w = (all_lines, w) ∧
  (get_recent_activity (Raised e) (Z.of_nat (S n)) w).1 = [].
Proof.
  assert (get_recent_activity (Returned all_lines) (Z.of_nat (S n)) w
          = (drop (length all_lines - S n) all_lines, w)) as Htail.
  { unfold get_recent_activity, slice_from. unmonad. f_equal.
    destruct (Z.leb_spec (Z.of_nat (S n)) (Z.of_nat (length all_lines))) as [Hle|Hlt].
    - destruct (Z.ltb_spec (- Z.of_nat (S n)) 0) as [_|?]; [|lia].
      f_equal. lia.
    - replace (length all_lines - S n) with 0 by lia. done. }
  rewrite Htail. cbn [fst]. repeat split.
  - rewrite length_drop. lia.
  - unfold get_recent_activity, slice_from. unmonad. f_equal.
    destruct (Z.leb_spec 0 (Z.of_nat (length all_lines))); [done|lia].
Qed.

(** ** The configuration generator *)

Lemma read_nfc_tag_Some polls tag_id :
  read_nfc_tag polls = Some tag_id →
  ∃ r, r ∈ polls ∧ read_value r = Some tag_id.
Proof.
  induction polls as [|r rest IH]; [done|]. cbn [read_nfc_tag].
  destruct r as [id text|msg].
  - destruct (Py.truthy_int id) eqn:Hid.
    + intros H. exists (ReadOk id text). split; [by left|]. cbn. by rewrite Hid.
    + intros (r & Hr & Hv)%IH. exists r. split; [by right|done].
  - intros (r & Hr & Hv)%IH. exists r. split; [by right|done].
Qed.

Lemma map_album_mapped album a tag_id cfg :
  map_this a = "y" →
  read_nfc_tag (polls a) = Some tag_id →
  nfc_mappings cfg !! tag_id = None ∨ overwrite a = "y" →
  map_album album a cfg = (map_tag tag_id album (shuffle_answer a) cfg, true).
Proof.
  intros Hy Hread Hfree. unfold map_album. rewrite Hy, Hread. cbn [String.eqb negb].
  destruct (read_nfc_tag_Some _ _ Hread) as (r & _ & Hv).
  cbn. rewrite (read_value_truthy r tag_id Hv).
  destruct Hfree as [Hnone| ->].
  - by rewrite Hnone.
  - by rewrite andb_false_r.
Qed.

(** [map_album] either leaves the configuration as it is or assigns the
    album to the tag that was read. *)
Lemma map_album_cases album a cfg :
  (map_album album a cfg).1 = cfg ∨
  ∃ tag_id,
    read_nfc_tag (polls a) = Some tag_id ∧
    map_album album a cfg = (map_tag tag_id album (shuffle_answer a) cfg, true).
Proof.
  unfold map_album.
  destruct (String.eqb (map_this a) "q"); [by left|].
  destruct (String.eqb (map_this a) "y"); [|by left]. cbn [negb].
  destruct (PyOpt.if_truthy (read_nfc_tag (polls a))) as [tag_id|] eqn:Ht; [|by left].
  apply if_truthy_Some in Ht as [Ht _].
  destruct (_ && _); [by left|]. right. by exists tag_id.
Qed.

(** X19: a mapping written by [interactive_mapping] is the mapping the player
    reads.  When the user answers "y" for an album of non-empty name, the
    generator's sensor yields a tag, and that tag is not mapped yet or the
    user answers "y" to "Overwrite?", then afterwards [get_album_info] for
    that tag yields that album and the shuffle preference given; the tag is
    one the player's [read_tag] reports for a card that was on the
    generator's sensor; the mapping of every other tag and the music path
    are as before, and the loop goes on. *)
Theorem mapped_tag_is_found album a tag_id cfg :
  map_this a = "y" →
  read_nfc_tag (polls a) = Some tag_id →
  nfc_mappings cfg !! tag_id = None ∨ overwrite a = "y" →
  Py.truthy_str album = true →
  let cfg' := (map_album album a cfg).1 in
  get_album_info cfg' (Some tag_id) = (Some album, shuffle_answer a) ∧
  (∃ r, r ∈ polls a ∧ ∀ w, (read_tag r w).1 = Some tag_id) ∧
  usb_mount_path cfg' = usb_mount_path cfg ∧
  (∀ other, other ≠ tag_id → nfc_mappings cfg' !! other = nfc_mappings cfg !! other) ∧
  (map_album album a cfg).2 = true.
Proof.
  intros Hy Hread Hfree Ha. cbn zeta.
  rewrite (map_album_mapped album a tag_id cfg Hy Hread Hfree). cbn [fst snd].
  split; [|split; [|split; [done|split; [|done]]]].
  - unfold get_album_info, map_tag. cbn. by rewrite lookup_insert_eq.
  - destruct (read_nfc_tag_Some _ _ Hread) as (r & Hr & Hv).
    exists r. split; [done|]. intros w.
    destruct r as [id text|msg]; [|done]. exact Hv.
  - intros other Hne. cbn. by rewrite lookup_insert_ne.
Qed.

(** The user maps the Pop album, shuffled; the sensor fails once, sees
    nothing once and then reads card 555. *)
Lemma mapped_tag_is_found_witness :
  let a := mkAnswers "y" [ReadRaises "AUTH ERROR"; ReadOk None None;
                          ReadOk (Some 555%Z) (Some "")] "" true in
  get_album_info (map_album "Pop" a Scenario.cfg).1 (Some "555") = (Some "Pop", true) ∧
  nfc_mappings (map_album "Pop" a Scenario.cfg).1 !! "111"
  = nfc_mappings Scenario.cfg !! "111".
Proof.
  cbn zeta.
  destruct (mapped_tag_is_found "Pop"
              (mkAnswers "y" [ReadRaises "AUTH ERROR"; ReadOk None None;
                              ReadOk (Some 555%Z) (Some "")] "" true)
              "555" Scenario.cfg) as (H1 & _ & _ & H2 & _).
  - reflexivity.
  - reflexivity.
  - left. reflexivity.
  - reflexivity.
  - split; [exact H1|]. apply H2. discriminate.
Defined.

(** X25: [interactive_mapping] never takes a mapping away and never touches
    the music path: a tag that was mapped before is mapped afterwards, and
    its mapping is either the one it had or an album of the list, in the
    new format, with the shuffle preference given for that album. *)
Theorem interactive_mapping_keeps_tags albums cfg tag_id :
  let cfg' := interactive_mapping albums cfg in
  usb_mount_path cfg' = usb_mount_path cfg ∧
  (is_Some (nfc_mappings cfg !! tag_id) → is_Some (nfc_mappings cfg' !! tag_id)) ∧
  (nfc_mappings cfg' !! tag_id = nfc_mappings cfg !! tag_id ∨
   ∃ album a, (album, a) ∈ albums ∧
     read_nfc_tag (polls a) = Some tag_id ∧
     nfc_mappings cfg' !! tag_id = Some (Full (Some (name album)) (Some (shuffle_answer a)))).
Proof.
  cbn zeta. revert cfg. induction albums as [|[album a] rest IH]; intros cfg.
  - cbn. by split; [|split; [|left]].
  - cbn [interactive_mapping].
    destruct (map_album_cases (name album) a cfg) as [Hsame|(t & Hread & Hmap)].
    + destruct (map_album (name album) a cfg) as [cfg1 go_on]. cbn in Hsame. subst cfg1.
      destruct go_on; [|by split; [|split; [|left]]].
      destruct (IH cfg) as (Hu & Hk & [Hl|(al & a' & Hin & Hr & Hl)]).
      * by split; [|split; [|left]].
      * split; [done|]. split; [done|]. right. exists al, a'.
        split; [by right|done].
    + rewrite Hmap.
      destruct (IH (map_tag t (name album) (shuffle_answer a) cfg))
        as (Hu & Hk & Hl).
      split; [by rewrite Hu|]. split.
      * intros Hsome. apply Hk. cbn.
        destruct (decide (t = tag_id)) as [->|Hne];
          [by rewrite lookup_insert_eq|by rewrite lookup_insert_ne].
      * destruct Hl as [Hl|(al & a' & Hin & Hr & Hl)].
        -- cbn in Hl. destruct (decide (t = tag_id)) as [->|Hne].
           ++ right. exists album, a. split; [by left|]. split; [done|].
              by rewrite Hl, lookup_insert_eq.
           ++ left. by rewrite Hl, lookup_insert_ne.
        -- right. exists al, a'. split; [by right|done].
Qed.

Lemma listable_cons d p paths : listable d (p :: paths) → listable d paths.
Proof. intros H q Hq. apply H. by right. Qed.

Lemma select_best_spec d paths b0 m0 :
  listable d paths →
  ∃ best most,
    select_best d paths b0 m0 = Returned (best, most) ∧
    (m0 ≤ most)%nat ∧
    (∀ q n, q ∈ paths → d_exists d q = true → album_count d q = Returned n → (n ≤ most)%nat) ∧
    ((best = b0 ∧ most = m0) ∨
     ((m0 < most)%nat ∧
      ∃ l1 p l2, paths = (l1 ++ p :: l2)%list ∧ best = Some p ∧
        d_exists d p = true ∧ album_count d p = Returned most ∧
        ∀ q n, q ∈ l1 → d_exists d q = true → album_count d q = Returned n → (n < most)%nat)).
Proof.
  revert b0 m0. induction paths as [|path rest IH]; intros b0 m0 Hl.
  { exists b0, m0. split; [done|]. split; [done|]. split; [|by left].
    intros q n Hq. by apply elem_of_nil in Hq. }
  pose proof (listable_cons _ _ _ Hl) as Hrest. cbn [select_best].
  destruct (d_exists d path) eqn:Hex.
  - destruct (Hl path) as [items Hitems]; [by left|done|].
    assert (album_count d path = Returned (length (filter (is_album d path) items))) as Hn
      by (unfold album_count; by rewrite Hitems).
    rewrite Hn. set (n := length (filter (is_album d path) items)) in *.
    destruct (Nat.ltb_spec m0 n) as [Hlt|Hge].
    + destruct (IH (Some path) n Hrest) as (best & most & -> & Hle & Hmax & Hsel).
      exists best, most. split; [done|]. split; [lia|]. split.
      * intros q k [->|Hq]%elem_of_cons Hq1 Hq2; [|by eapply Hmax].
        rewrite Hn in Hq2. injection Hq2 as <-. done.
      * right. split; [lia|]. destruct Hsel as [(-> & ->)|(Hlt' & l1 & p & l2 & -> & -> & Hp1 & Hp2 & Hfirst)].
        -- exists [], path, rest. repeat split; try done.
           intros q k Hq. by apply elem_of_nil in Hq.
        -- exists (path :: l1), p, l2. repeat split; try done.
           intros q k [->|Hq]%elem_of_cons Hq1 Hq2; [|by eapply Hfirst].
           rewrite Hn in Hq2. injection Hq2 as <-. done.
    + destruct (IH b0 m0 Hrest) as (best & most & -> & Hle & Hmax & Hsel).
      exists best, most. split; [done|]. split; [done|]. split.
      * intros q k [->|Hq]%elem_of_cons Hq1 Hq2; [|by eapply Hmax].
        rewrite Hn in Hq2. injection Hq2 as <-. lia.
      * destruct Hsel as [?|(Hlt' & l1 & p & l2 & -> & -> & Hp1 & Hp2 & Hfirst)]; [by left|].
        right. split; [done|]. exists (path :: l1), p, l2. repeat split; try done.
        intros q k [->|Hq]%elem_of_cons Hq1 Hq2; [|by eapply Hfirst].
        rewrite Hn in Hq2. injection Hq2 as <-. lia.
  - destruct (IH b0 m0 Hrest) as (best & most & -> & Hle & Hmax & Hsel).
    exists best, most. split; [done|]. split; [done|]. split.
    * intros q k [->|Hq]%elem_of_cons Hq1 Hq2; [congruence|by eapply Hmax].
    * destruct Hsel as [?|(Hlt' & l1 & p & l2 & -> & -> & Hp1 & Hp2 & Hfirst)]; [by left|].
      right. split; [done|]. exists (path :: l1), p, l2. repeat split; try done.
      intros q k [->|Hq]%elem_of_cons Hq1 Hq2; [congruence|by eapply Hfirst].
Qed.

(** X20: when the folders it looks at can be listed, [find_usb_path] returns
    the largest number of albums found in any candidate path that exists,
    together with the first candidate that has that many; it returns no path
    exactly when that number is 0, that is when no candidate has an album. *)
Theorem find_usb_path_picks_most_albums d paths :
  paths_to_check d = Returned paths →
  listable d paths →
  ∃ best most,
    find_usb_path d = Returned (best, most) ∧
    (∀ q n, q ∈ paths → d_exists d q = true → album_count d q = Returned n → (n ≤ most)%nat) ∧
    (best = None ↔ most = 0) ∧
    ∀ p, best = Some p →
      ∃ l1 l2, paths = (l1 ++ p :: l2)%list ∧
        d_exists d p = true ∧ album_count d p = Returned most ∧
        ∀ q n, q ∈ l1 → d_exists d q = true → album_count d q = Returned n → (n < most)%nat.
Proof.
  intros Hpaths Hl. unfold find_usb_path. rewrite Hpaths.
  destruct (select_best_spec d paths None 0 Hl) as (best & most & -> & _ & Hmax & Hsel).
  exists best, most. split; [done|]. split; [done|].
  destruct Hsel as [(-> & ->)|(Hlt & l1 & p & l2 & -> & -> & Hp1 & Hp2 & Hfirst)].
  - split; [done|]. intros p [=].
  - split; [split; [done|lia]|]. intros p' [= <-]. by exists l1, l2.
Qed.

(** On the stick of the set-up the MUSIC folder wins with its two albums. *)
Lemma find_usb_path_picks_most_albums_witness :
  find_usb_path Setup.drive = Returned (Some "/media/pi/STICK/MUSIC", 2) ∧
  album_count Setup.drive "/media/pi/STICK/MUSIC" = Returned 2.
Proof.
  split; [reflexivity|].
  destruct (find_usb_path_picks_most_albums Setup.drive
              ["/media/pi/MUSIC"; "/mnt/MUSIC"; "/media/pi/STICK"; "/media/pi/STICK/MUSIC"])
    as (best & most & Hr & _ & _ & Hbest).
  - reflexivity.
  - intros p Hp Hex. repeat (apply elem_of_cons in Hp as [->|Hp]);
      try discriminate Hex; [by eexists..|]. by apply elem_of_nil in Hp.
  - vm_compute in Hr. injection Hr as <- <-.
    destruct (Hbest _ eq_refl) as (l1 & l2 & _ & _ & Hcount & _). exact Hcount.
Defined.

#[global] Instance name_le_trans : Transitive name_le.
Proof. intros a b c. unfold name_le. apply str_le_trans. Qed.

#[global] Instance name_le_total : Total name_le.
Proof. intros a b. unfold name_le. apply str_le_total. Qed.

Lemma scanned_entry d music_path item a :
  album_entry d music_path item = Some a ↔
  is_album d music_path item = true ∧
  a = mkAlbum item (Py.path_join music_path item)
        (length (d_glob d (Py.path_join (Py.path_join music_path item) "*.mp3"))).
Proof.
  unfold album_entry, is_album. cbn zeta.
  destruct (d_isdir d _); cbn [andb]; [|split; [done|by intros [? _]]].
  destruct (d_glob d _) as [|f fs] eqn:Hg.
  - split; [done|]. intros [Hb _]. by apply bool_decide_eq_true in Hb.
  - split.
    + intros [= <-]. split; [by apply bool_decide_eq_true|done].
    + by intros [_ ->].
Qed.

Lemma album_entries_count d music_path items :
  length (omap (album_entry d music_path) items)
  = length (filter (is_album d music_path) items).
Proof.
  induction items as [|item items IH]; [done|].
  cbn [omap list_omap]. destruct (is_album d music_path item) eqn:Halb.
  - rewrite filter_cons_True by (by rewrite Halb).
    destruct (album_entry d music_path item) as [a|] eqn:He; [cbn; by rewrite IH|].
    assert (album_entry d music_path item = Some (mkAlbum item (Py.path_join music_path item)
      (length (d_glob d (Py.path_join (Py.path_join music_path item) "*.mp3")))))
      by (by apply scanned_entry). congruence.
  - rewrite filter_cons_False by (rewrite Halb; auto).
    destruct (album_entry d music_path item) as [a|] eqn:He; [|done].
    apply scanned_entry in He as [? _]. congruence.
Qed.

Lemma album_entries_spec d music_path (items : list string) a :
  a ∈ omap (album_entry d music_path) items ↔
  name a ∈ items ∧ is_album d music_path (name a) = true ∧
  path a = Py.path_join music_path (name a) ∧
  track_count a = length (d_glob d (Py.path_join (path a) "*.mp3")).
Proof.
  rewrite list_elem_of_omap. split.
  - intros (item & Hin & (Halb & ->)%scanned_entry). done.
  - intros (Hin & Halb & Hpath & Hcount). exists (name a). split; [done|].
    apply scanned_entry. split; [done|]. destruct a as [n p c]. cbn in *. by subst.
Qed.

(** X21: for a music folder that exists and can be listed, [scan_albums]
    returns one entry for each item that is a directory for whose pattern
    [<item path>/*.mp3] [glob] returns at least one path, and for no other
    item; each entry has the item's path under the music folder and, as its
    track count, the number of paths [glob] returned; the entries are in
    ascending order of names; and their number is the album count
    [find_usb_path] computes for that folder. *)
Theorem scan_albums_finds_albums d music_path items :
  d_exists d music_path = true →
  d_listdir d music_path = Returned items →
  ∃ albums,
    scan_albums d music_path = Returned albums ∧
    StronglySorted name_le albums ∧
    album_count d music_path = Returned (length albums) ∧
    (∀ a, a ∈ albums ↔
       name a ∈ items ∧ is_album d music_path (name a) = true ∧
       path a = Py.path_join music_path (name a) ∧
       track_count a = length (d_glob d (Py.path_join (path a) "*.mp3"))) ∧
    Forall (λ a, (0 < track_count a)%nat) albums.
Proof.
  intros Hex Hitems. unfold scan_albums, album_count. rewrite Hex, Hitems. cbn [negb].
  set (entry := album_entry d music_path). eexists. split; [reflexivity|].
  pose proof (album_entries_spec d music_path items) as Hmem. fold entry in Hmem.
  split; [apply StronglySorted_merge_sort; apply _|]. split; [|split].
  - f_equal. rewrite (Permutation_length (merge_sort_Permutation _ _)).
    symmetry. apply album_entries_count.
  - intros a. by rewrite merge_sort_Permutation.
  - rewrite merge_sort_Permutation. apply Forall_forall. intros a Ha.
    apply Hmem in Ha as (_ & Halb & Hpath & ->). rewrite Hpath.
    unfold is_album in Halb. apply andb_prop in Halb as [_ Hne%bool_decide_eq_true].
    destruct (d_glob d _); [done|cbn; lia].
Qed.

(** The MUSIC folder of the set-up: Jazz with three tracks before Rock with
    one; the folder of notes is no album. *)
Lemma scan_albums_finds_albums_witness :
  scan_albums Setup.drive "/media/pi/STICK/MUSIC"
  = Returned [mkAlbum "Jazz" "/media/pi/STICK/MUSIC/Jazz" 3;
              mkAlbum "Rock" "/media/pi/STICK/MUSIC/Rock" 1].
Proof.
  destruct (scan_albums_finds_albums Setup.drive "/media/pi/STICK/MUSIC"
              ["Rock"; "Jazz"; "notes"] eq_refl eq_refl) as (albums & Hr & _).
  rewrite Hr. vm_compute in Hr. by injection Hr as <-.
Defined.

(** X22: every album the generator offers can be played: for an entry of
    [scan_albums] on the music folder, a player configured with that folder
    and seeing the same drive accepts the album's name in [play_album], and
    without shuffle the playlist has as many tracks as the entry says. *)
Theorem scanned_album_is_playable d env music_path albums a w :
  scan_albums d music_path = Returned albums →
  a ∈ albums →
  d_exists d music_path = true →
  usb_mount_path (cfg_of w) = music_path →
  (∀ p, d_isdir d p = true → path_exists env p = true) →
  (∀ p, glob env p = d_glob d p) →
  (play_album env (name a) false w).1 = true ∧
  length (MusicPlayer.current_playlist (player (play_album env (name a) false w).2))
    = track_count a.
Proof.
  intros Hscan Ha Hex Hpath Hdir Hglob.
  assert (∃ items, d_listdir d music_path = Returned items) as [items Hitems].
  { unfold scan_albums in Hscan. rewrite Hex in Hscan. cbn in Hscan.
    destruct (d_listdir d music_path); [by eexists|done]. }
  unfold scan_albums in Hscan. rewrite Hex, Hitems in Hscan. injection Hscan as <-.
  rewrite merge_sort_Permutation in Ha.
  apply album_entries_spec in Ha as (_ & Halb & Hp & Hcount).
  unfold is_album in Halb. apply andb_prop in Halb as [Hisdir Hne%bool_decide_eq_true].
  assert (playable env (cfg_of w) (name a) = true) as Hplay.
  { unfold playable, album_tracks, album_path. rewrite Hpath, (Hdir _ Hisdir). cbn.
    apply bool_decide_eq_true. rewrite sort_nil_iff, Hglob. done. }
  rewrite play_album_result. split; [done|].
  destruct (play_album_accepted env (name a) false w Hplay) as (-> & _). cbn.
  unfold album_tracks, album_path.
  rewrite (Permutation_length (sort_Permutation _)), Hglob, Hpath, Hcount, Hp. done.
Qed.

(** The Jazz entry of the set-up is played by a player configured with the
    MUSIC folder. *)
Lemma scanned_album_is_playable_witness :
  let w := boot (mkConfig "/media/pi/STICK/MUSIC" ∅) "2026-01-01 11:59:00" in
  (play_album Setup.env "Jazz" false w).1 = true ∧
  length (MusicPlayer.current_playlist (player (play_album Setup.env "Jazz" false w).2)) = 3.
Proof.
  cbn zeta.
  apply (scanned_album_is_playable Setup.drive Setup.env "/media/pi/STICK/MUSIC"
           [mkAlbum "Jazz" "/media/pi/STICK/MUSIC/Jazz" 3;
            mkAlbum "Rock" "/media/pi/STICK/MUSIC/Rock" 1]
           (mkAlbum "Jazz" "/media/pi/STICK/MUSIC/Jazz" 3)).
  - reflexivity.
  - by left.
  - reflexivity.
  - reflexivity.
  - intros p Hp. exact Hp.
  - reflexivity.
Defined.
